(** * Event based risk calculator: partitioning, aggregation and guards

    A shallow embedding of [openquake/calculators/event_based_risk.py]:
    the generator [gen_args] that cuts the stored ground motion rows into
    task slices, the aggregation of loss records in [aggregate_losses], the
    taxonomy loop of [event_based_risk], the size guard at the end of
    [pre_execute] and the empty-hazard check of [execute].

    Conventions of the embedding.
    - Row counts, event ids, asset ordinals and aggregation ids are [nat].
    - Python's true division [a / b] of two integers is modelled by the exact
      rational [a / b]; the comparisons made with its result agree with the
      floating point ones as long as the products compared stay below 2^53.
      Losses and variances (numpy [float32]) are modelled by real numbers,
      so rounding is not part of the model; [sqrt] is the real square root,
      which agrees with [numpy.sqrt] on the non-negative numbers.
    - The conversions to the column types of [gmf_info_dt] and of the
      frames of the event loss table are parameters of the model: what numpy
      does to a value that the column type cannot hold is left open.
    - A generator is modelled by the list of the values it yields, in order.
    - A raised exception is modelled by [None] or by an explicit error
      constructor. *)

From Stdlib Require Import QArith Reals Lra Lia.
From stdpp Require Import gmap strings list fin_maps sorting.

Local Open Scope nat_scope.

(** ** The partitioner: [EventBasedRiskCalculator.gen_args] *)

Module Partitioner.

(** [itertools.groupby(eids)]: maximal runs of equal consecutive event ids,
    each given as the pair of its key and of its rows. *)
Fixpoint groupby (eids : list nat) : list (nat * list nat) :=
  match eids with
  | [] => []
  | eid :: rest =>
      match groupby rest with
      | (k, group) :: gs =>
          if Nat.eqb eid k then (k, eid :: group) :: gs
          else (eid, [eid]) :: (k, group) :: gs
      | [] => [(eid, [eid])]
      end
  end.

(** [weight > maxweight], an integer against the float [maxweight]. *)
Definition exceeds (weight : nat) (maxweight : Q) : bool :=
  negb (Qle_bool (inject_Z (Z.of_nat weight)) maxweight).

(** The [for] loop of [gen_args] over the groups still to come, with the
    current values of the local variables [start], [stop] and [weight];
    every [yield slice(start, stop)] adds the pair [(start, stop)]. The
    last equation is the [if weight:] after the loop. *)
Fixpoint gen_loop (maxweight : Q) (groups : list (nat * list nat))
    (start stop weight : nat) : list (nat * nat) :=
  match groups with
  | [] => if Nat.eqb weight 0 then [] else [(start, stop)]
  | (_, group) :: groups' =>
      let nsites := length group in
      let stop := stop + nsites in
      let weight := weight + nsites in
      if exceeds weight maxweight
      then (start, stop) :: gen_loop maxweight groups' stop stop 0
      else gen_loop maxweight groups' start stop weight
  end.

(** [ct = self.oqparam.concurrent_tasks or 1] *)
Definition or_1 (concurrent_tasks : nat) : nat :=
  if Nat.eqb concurrent_tasks 0 then 1 else concurrent_tasks.

(** [maxweight = len(eids) / ct] *)
Definition maxweight_of (concurrent_tasks : nat) (eids : list nat) : Q :=
  inject_Z (Z.of_nat (length eids))
  / inject_Z (Z.of_nat (or_1 concurrent_tasks)).

(** The body of [gen_args] after [maxweight] has been computed. *)
Definition gen_args_with (maxweight : Q) (eids : list nat)
    : list (nat * nat) :=
  gen_loop maxweight (groupby eids) 0 0 0.

Definition gen_args (concurrent_tasks : nat) (eids : list nat)
    : list (nat * nat) :=
  gen_args_with (maxweight_of concurrent_tasks eids) eids.

(** What a task reads back from a yielded slice: [rows[start:stop]]. *)
Definition read_slice {A} (rows : list A) (slc : nat * nat) : list A :=
  take (slc.2 - slc.1) (drop slc.1 rows).

End Partitioner.

(** ** Accumulators and group-by sums *)

Module Accum.

(** The two-element array [[loss, x]] stored under each key. *)
Definition lv : Type := R * R.

(** [numpy.zeros(2, F32)] *)
Definition zeros : lv := (0%R, 0%R).

Definition lv_add (a b : lv) : lv := ((a.1 + b.1)%R, (a.2 + b.2)%R).

Section AccumDict.
Context {K : Type} `{Countable K}.

(** Modelled from the spec: [general.AccumDict] is defined in
    [openquake.baselib.general]. The spec describes it as a mapping whose
    entries are created lazily on first contribution, from the zero
    default, with an upsert-or-add operation and an element-wise merge by
    key; insertion order is irrelevant.  [get d k] is [d[k]]. *)
Definition get (d : gmap K lv) (k : K) : lv := default zeros (d !! k).

(** Modelled from the spec: the upsert-or-add [d[k] += v] on an
    [AccumDict] with default [zeros]. *)
Definition add_at (d : gmap K lv) (k : K) (v : lv) : gmap K lv :=
  <[k := lv_add (get d k) v]> d.

(** Modelled from the spec: the element-wise merge by key [d += other] of
    two [AccumDict]s. *)
Definition iadd (d other : gmap K lv) : gmap K lv :=
  union_with (λ a b, Some (lv_add a b)) d other.

(** [for key, v in tot: d[key] += v] *)
Definition add_all (d : gmap K lv) (tot : list (K * lv)) : gmap K lv :=
  foldl (λ d kv, add_at d kv.1 kv.2) d tot.
End AccumDict.

Section GroupBy.
Context {K : Type} `{EqDecision K}.
Context (key_le : relation K) `{∀ a b, Decision (key_le a b)}.
Context {V : Type} (vzero : V) (vadd : V → V → V).

Definition vsum (vs : list V) : V := foldr vadd vzero vs.

(** The rows of a group: those carrying the key [k]. *)
Definition group_of (k : K) (rows : list (K * V)) : list V :=
  (filter (λ r, r.1 = k) rows).*2.

(** [DataFrame.groupby(keys).sum()] of pandas: one row for each distinct
    key, in increasing order of the keys, holding the sum of the rows
    of the group. *)
Definition groupby_sum (rows : list (K * V)) : list (K * V) :=
  (λ k, (k, vsum (group_of k rows)))
    <$> merge_sort key_le (remove_dups rows.*1).
End GroupBy.

(** Lexicographic order on the index pairs of a two-column group-by. *)
Definition pair_le (a b : nat * nat) : Prop :=
  a.1 < b.1 ∨ (a.1 = b.1 ∧ a.2 ≤ b.2).

#[global] Instance pair_le_dec a b : Decision (pair_le a b).
Proof. unfold pair_le. apply _. Defined.

End Accum.

(** ** [aggregate_losses] *)

Module Aggregator.
Import Accum.

(** A row of [alt], the losses of one loss type computed for a taxonomy. *)
Record loss_record : Type := LossRecord {
  eid : nat;
  aid : nat;
  loss : R;
  variance : R
}.

(** Python truth value of an integer flag. *)
Definition truthy (n : nat) : bool := negb (Nat.eqb n 0).

(** [x = numpy.sqrt(alt.variance) if correl else alt.variance] *)
Definition x_of (correl : nat) (r : loss_record) : R :=
  if truthy correl then sqrt (variance r) else variance r.

(** The frame [ldf] with the columns [eid], [loss] and [x].  *)
Definition ldf (correl : nat) (alt : list loss_record) : list (nat * lv) :=
  (λ r, (eid r, (loss r, x_of correl r))) <$> alt.

(** [ldf] after [ldf['kid'] = kids[alt.aid.to_numpy()]], keyed by
    [(eid, kid)]; indexing [kids] out of range raises, hence [None]. *)
Definition ldf_kid (correl : nat) (kids : list nat) (alt : list loss_record)
    : option (list ((nat * nat) * lv)) :=
  mapM (λ r, k ← kids !! aid r;
             Some ((eid r, k), (loss r, x_of correl r))) alt.

(** [lbe[k][1] = lbe[k][1] ** 2] for every key. *)
Definition restore_variances (lbe : gmap (nat * nat) lv)
    : gmap (nat * nat) lv :=
  (λ v : lv, (v.1, (v.2 ^ 2)%R)) <$> lbe.

Definition aggregate_losses (alt : list loss_record) (K : nat)
    (kids : list nat) (correl : nat) : option (gmap (nat * nat) lv) :=
  let lbe : gmap (nat * nat) lv := ∅ in
  lbe ← (if Nat.eqb (length kids) 0 then Some lbe
         else rows ← ldf_kid correl kids alt;
              Some (add_all lbe (groupby_sum pair_le zeros lv_add rows)));
  let tot := groupby_sum le zeros lv_add (ldf correl alt) in
  let lbe := add_all lbe ((λ r : nat * lv, ((r.1, K), r.2)) <$> tot) in
  Some (if truthy correl then restore_variances lbe else lbe).

End Aggregator.

(** ** The task [event_based_risk] *)

Module Task.
Import Accum Aggregator.

(** A row of [assetcol/array], read with index [ordinal]. *)
Record asset : Type := Asset {
  ordinal : nat;
  taxonomy : nat;
  site_id : nat
}.

(** A row of [gmf_data]: site, event and one value for each IMT. *)
Record gmf_row : Type := GmfRow {
  sid : nat;
  gmf_eid : nat;
  gmv : list R
}.

(** [sparse.coo_matrix((data, (row, col)), shape)] *)
Record coo_matrix : Type := Coo {
  coo_data : list R;
  coo_row : list nat;
  coo_col : list nat;
  coo_shape : nat * nat
}.

(** The entries of [param] read by the task. *)
Record param : Type := Param {
  K : nat;
  collect_rlzs : bool;
  avg_losses : bool;
  asset_correlation : nat;
  master_seed : nat
}.

(** What the task reads from the datastore and from the monitor. *)
Record inputs : Type := Inputs {
  assets_df : list asset;
  kids_dset : list nat;
  rlz_id : list nat;
  weights : list R;
  loss_names : list string;
  ignore_master_seed : bool
}.

(** The loop over an [option]-valued body, stopping at the first error. *)
Fixpoint foldlM {A B} (f : A → B → option A) (a : A) (l : list B)
    : option A :=
  match l with
  | [] => Some a
  | b :: l' => a' ← f a b; foldlM f a' l'
  end.

(** [assets_df.groupby('taxonomy')]: for each taxonomy, in increasing
    order, the assets having it. *)
Definition taxonomy_groups (assets : list asset) : list (nat * list asset) :=
  (λ t, (t, filter (λ a, taxonomy a = t) assets))
    <$> merge_sort le (remove_dups (taxonomy <$> assets)).

(** [df[numpy.isin(df.sid.to_numpy(), asset_df.site_id.to_numpy())]] *)
Definition relevant_rows (df : list gmf_row) (asset_df : list asset)
    : list gmf_row :=
  filter (λ row, sid row ∈ site_id <$> asset_df) df.

(** [numpy.unique(df.eid)] *)
Definition unique_eids (df : list gmf_row) : list nat :=
  merge_sort le (remove_dups (gmf_eid <$> df)).

(** The constructor of [coo_matrix] rejects indices outside the shape. *)
Definition coo (data : list R) (rows cols : list nat) (shape : nat * nat)
    : option coo_matrix :=
  if decide (Forall (λ i, i < shape.1) rows ∧ Forall (λ j, j < shape.2) cols)
  then Some (Coo data rows cols shape) else None.

Section Task.
(** The random number generator and the risk model are collaborators:
    [get_output taxo asset_df gmf_df rndgen] stands for
    [crmodel.get_output(taxo, asset_df, gmf_df, param['sec_losses'], rndgen)];
    it may fail, it may advance the generator, and it returns the loss
    records of every loss type. *)
Context {rng : Type}.
Variable MultiEventRNG : nat → list nat → nat → rng.
Variable get_output :
  nat → list asset → list gmf_row → option rng
  → option ((string → list loss_record) * option rng).

(** The variables changed by the loop over the taxonomies. *)
Record state : Type := State {
  rndgen : option rng;
  loss_by_AR : gmap string (list coo_matrix);
  loss_by_EK1 : gmap string (gmap (nat * nat) lv)
}.

Variable par : param.
Variable inp : inputs.

(** [kids = dstore['assetcol/kids'][:] if K else ()] *)
Definition kids : list nat :=
  if Nat.eqb (K par) 0 then [] else kids_dset inp.

(** [AR = len(assets_df), len(weights)] with
    [weights = [1] if param['collect_rlzs'] else dstore['weights'][()]] *)
Definition AR : nat * nat :=
  (length (assets_df inp),
   if collect_rlzs par then 1 else length (weights inp)).

(** The body of [for lni, ln in enumerate(crmodel.oqparam.loss_names)]
    for the loss records [alt = out[ln]]. *)
Definition add_losses (ln : string) (alt : list loss_record) (s : state)
    : option state :=
  if Nat.eqb (length alt) 0 then Some s
  else
    lbe ← aggregate_losses alt (K par) kids (asset_correlation par);
    let ek1 := alter (λ d, iadd d lbe) ln (loss_by_EK1 s) in
    if collect_rlzs par then
      let tot := groupby_sum le 0%R Rplus ((λ r, (aid r, loss r)) <$> alt) in
      m ← coo tot.*2 tot.*1 ((λ _, 0) <$> tot) AR;
      Some (State (rndgen s) (alter (λ l, l ++ [m]) ln (loss_by_AR s)) ek1)
    else if avg_losses par then
      rows ← mapM (λ r, z ← rlz_id inp !! eid r;
                        Some ((aid r, z), loss r)) alt;
      let tot := groupby_sum pair_le 0%R Rplus rows in
      m ← coo tot.*2 tot.*1.*1 tot.*1.*2 AR;
      Some (State (rndgen s) (alter (λ l, l ++ [m]) ln (loss_by_AR s)) ek1)
    else Some (State (rndgen s) (loss_by_AR s) ek1).

(** The body of [for taxo, asset_df in assets_df.groupby('taxonomy')]. *)
Definition process_group (df : list gmf_row) (s : state)
    (g : nat * list asset) : option state :=
  let gmf_df := relevant_rows df g.2 in
  if Nat.eqb (length gmf_df) 0 then Some s
  else
    '(out, rndgen') ← get_output g.1 g.2 gmf_df (rndgen s);
    foldlM (λ s ln, add_losses ln (out ln) s)
           (State rndgen' (loss_by_AR s) (loss_by_EK1 s))
           (loss_names inp).

Definition taxonomy_loop (df : list gmf_row) (s : state)
    (groups : list (nat * list asset)) : option state :=
  foldlM (process_group df) s groups.

(** The state before the loop. *)
Definition initial (df : list gmf_row) : state :=
  State (if ignore_master_seed inp then None
         else Some (MultiEventRNG (master_seed par) (unique_eids df)
                                  (asset_correlation par)))
        (list_to_map ((λ ln, (ln, [])) <$> loss_names inp))
        (list_to_map ((λ ln, (ln, ∅)) <$> loss_names inp)).

(** [event_based_risk] up to the end of its loop: the accumulators
    [loss_by_AR] and [loss_by_EK1] it goes on to yield. *)
Definition event_based_risk (df : list gmf_row) : option state :=
  taxonomy_loop df (initial df) (taxonomy_groups (assets_df inp)).
End Task.

End Task.

(** ** The size guard of [pre_execute] *)

Inductive exn : Type :=
  | RuntimeError (message : string) (args : list Z).

Module Guard.

Definition TWO32 : Z := 2 ^ 32.

(** [x or 1] *)
Definition or_1 (x : Z) : Z := if Z.eqb x 0 then 1%Z else x.

(** The last statements of [pre_execute], with [E = self.E] events and
    [L = len(oq.loss_names)] loss types: [None] when nothing is raised. *)
Definition check_alt_nbytes (E L concurrent_tasks : Z) : option exn :=
  let alt_nbytes := (4 * E * L)%Z in
  if negb (Qle_bool (inject_Z alt_nbytes / inject_Z (or_1 concurrent_tasks))
                    (inject_Z TWO32))
  then Some (RuntimeError
               "The event loss table is too big to be transferred with %d tasks"
               [concurrent_tasks])
  else None.

End Guard.

(** ** [ebrisk], [start_ebrisk], [agg_dicts] and [execute] *)

Module Execute.
Import Task.

(** A row of the dataset [gmf_info], of type [gmf_info_dt]. *)
Record gmf_info_row : Type := GmfInfoRow {
  rup_id : nat;
  task_no : nat;
  nsites : nat;
  gmfbytes : R;
  dt : R
}.

(** The conversions that [numpy.array(gmf_info, gmf_info_dt)] applies to
    the fields of a tuple: to [U32] for [rup_id], to [U16] for [task_no]
    and [nsites], to [F32] for [gmfbytes] and [dt].  What they do to a
    value that the column type cannot hold is left open. *)
Class dtype_casts : Type := DtypeCasts {
  as_U32 : nat → nat;
  as_U16 : nat → nat;
  as_F32 : R → R
}.

(** A tuple appended to the list [gmf_info] of [ebrisk]:
    [(c.ebrupture.id, mon_haz.task_no, len(c.sids), nbytes, mon_haz.dt)]. *)
Definition info_tuple : Type := nat * nat * nat * nat * R.

(** [numpy.array(gmf_info, gmf_info_dt)] *)
Definition gmf_info_array {casts : dtype_casts} (info : list info_tuple)
    : list gmf_info_row :=
  (λ t : info_tuple,
     GmfInfoRow (as_U32 t.1.1.1.1) (as_U16 t.1.1.1.2) (as_U16 t.1.1.2)
                (as_F32 (INR t.1.2)) (as_F32 t.2))
    <$> info.

(** A row of the frame built by [_build_agg_loss_table]. *)
Record alt_row : Type := AltRow {
  event_id : nat;
  agg_id : nat;
  alt_loss : R;
  alt_variance : R;
  loss_id : nat
}.

(** The values found in the dictionaries yielded by the tasks. *)
Inductive value : Type :=
  | DataFrame (rows : list alt_row)
  | CooList (ls : list coo_matrix)
  | GmfInfo (rows : list gmf_info_row).

(** The part of the calculator changed by [agg_dicts]: the datasets
    [gmf_info] and [agg_loss_table] and the array [self.avg_losses],
    a dense array of zeros when created. *)
Record calc : Type := Calc {
  gmf_info : list gmf_info_row;
  agg_loss_table : list alt_row;
  calc_avg_losses : gmap (nat * nat * nat) R
}.

Inductive outcome : Type :=
  | Returned (v : nat)
  | Raised (e : exn)
  | Failed.   (* an error raised inside a task or by a malformed result *)

Definition no_gmfs : exn :=
  RuntimeError
    "No GMFs were generated, perhaps they were all below the minimum_intensity threshold"
    [].

Section Execute.
(** [cell] is the type of the values in the hazard columns; a rupture
    getter is seen through the computers it generates, each with the
    result [data] of its [compute_all] (a dictionary of columns, empty when
    the rupture produced no ground motion row above the threshold). *)
Context {cell rupgetter : Type} {casts : dtype_casts}.

Record computer : Type := Computer {
  ebrupture_id : nat;
  num_sids : nat;
  data : gmap string (list cell);
  mon_dt : R
}.

Variable gen_computers : rupgetter → list computer.
Variable split : rupgetter → list rupgetter.
Variable task_no_of : rupgetter → nat.
Variable lti : gmap string nat.
(** The dictionaries yielded by [event_based_risk] on a frame of hazard
    columns (built by [ebrisk] from [alldata] after the conversion of its
    columns to [U32] and [F32]), respectively on a slice of the stored
    [gmf_data]. *)
Variable risk_of_frame : gmap string (list cell) → option (list (gmap string value)).
Variable risk_of_slice : nat * nat → option (list (gmap string value)).

(** One turn of [for c in gg.gen_computers(mon_rup)] in [ebrisk], on the
    pair of [alldata] and [gmf_info]. *)
Definition collect (no : nat)
    (acc : gmap string (list cell) * list info_tuple) (c : computer)
    : option (gmap string (list cell) * list info_tuple) :=
  if Nat.eqb (size (data c)) 0 then Some acc
  else
    sids ← data c !! "sid";
    let alldata := union_with (λ a b, Some (a ++ b)) acc.1 (data c) in
    let nbytes := length sids * size (data c) * 4 in
    Some (alldata,
          acc.2 ++ [(ebrupture_id c, no, num_sids c, nbytes, mon_dt c)]).

(** The dictionaries yielded by [ebrisk(rupgetter, param, monitor)]. *)
Definition ebrisk (rg : rupgetter) : option (list (gmap string value)) :=
  '(alldata, info) ← foldlM (collect (task_no_of rg)) (∅, []) (gen_computers rg);
  if decide (alldata = ∅) then Some []
  else
    ys ← risk_of_frame alldata;
    Some (ys ++ if Nat.eqb (length info) 0 then []
                else [{["gmf_info" := GmfInfo (gmf_info_array info)]}]).

(** [start_ebrisk]: all the getters of the split but the last become
    subtasks, the last one is run in place; the pool runs the subtasks,
    so that every getter of the split goes through [ebrisk]. *)
Definition start_ebrisk (rg : rupgetter) : option (list (gmap string value)) :=
  let rgetters := split rg in
  subs ← mapM ebrisk (take (length rgetters - 1) rgetters);
  last ← match last rgetters with
         | Some rg' => ebrisk rg'
         | None => Some []
         end;
  Some (concat subs ++ last).

(** [self.avg_losses[coo.row, coo.col, lti[ln]] += coo.data] *)
Definition add_coo (l : nat) (avg : gmap (nat * nat * nat) R) (m : coo_matrix)
    : gmap (nat * nat * nat) R :=
  foldl (λ avg e, let k := (e.1.1, e.1.2, l) in
                  <[k := (default 0%R (avg !! k) + e.2)%R]> avg)
        avg (zip (zip (coo_row m) (coo_col m)) (coo_data m)).

Definition agg_dicts (c : calc) (dic : gmap string value) : option calc :=
  if decide (dic = ∅) then Some c
  else match dic !! "gmf_info" with
       | Some (GmfInfo rows) =>
           Some (Calc (gmf_info c ++ rows) (agg_loss_table c)
                      (calc_avg_losses c))
       | Some _ => None
       | None =>
           foldlM (λ c item,
                     match item.2 with
                     | DataFrame rows =>
                         Some (Calc (gmf_info c) (agg_loss_table c ++ rows)
                                    (calc_avg_losses c))
                     | CooList ls =>
                         l ← lti !! item.1;
                         Some (Calc (gmf_info c) (agg_loss_table c)
                                    (foldl (add_coo l) (calc_avg_losses c) ls))
                     | GmfInfo _ => None
                     end)
                  c (map_to_list dic)
       end.

(** [execute], for the rupture getters [rgs] produced by
    [gen_rupture_getters] respectively the event ids [eids] stored in
    [gmf_data/eid]; [arrival] is the order in which the results reach
    [agg_dicts]. *)
Definition execute (c : calc) (gmf_data : option (list nat))
    (concurrent_tasks : nat) (rgs : list rupgetter)
    (arrival : list (gmap string value) → list (gmap string value))
    : outcome :=
  match gmf_data with
  | None =>
      match mapM start_ebrisk rgs with
      | None => Failed
      | Some yss =>
          match foldlM agg_dicts c (arrival (concat yss)) with
          | None => Failed
          | Some c' =>
              if Nat.eqb (length (gmf_info c')) 0 then Raised no_gmfs
              else Returned 1
          end
      end
  | Some eids =>
      match mapM risk_of_slice (Partitioner.gen_args concurrent_tasks eids) with
      | None => Failed
      | Some yss =>
          match foldlM agg_dicts c (arrival (concat yss)) with
          | None => Failed
          | Some _ => Returned 1
          end
      end
  end.
End Execute.

End Execute.

(** ** Notions used to state the properties of the partitioner *)

Module PartitionerSpec.
Import Partitioner.

(** A natural number as a rational, to compare weights with [maxweight]. *)
Definition qnat (n : nat) : Q := inject_Z (Z.of_nat n).

(** The rows and the weight of a sequence of groups. *)
Definition rows_of (groups : list (nat * list nat)) : list nat :=
  concat groups.*2.

Definition weight_of (groups : list (nat * list nat)) : nat :=
  length (rows_of groups).

(** A group is a non-empty run of its key. *)
Definition run (g : nat * list nat) : Prop :=
  g.2 ≠ [] ∧ Forall (eq g.1) g.2.

(** The number of rows of a slice. *)
Definition slice_weight (slc : nat * nat) : nat := slc.2 - slc.1.

(** The loop of [gen_args] once more, collecting for each slice the groups
    it is made of: [cur] holds the groups met since the last [yield]. *)
Fixpoint chunk_loop (maxweight : Q) (groups : list (nat * list nat))
    (cur : list (nat * list nat)) (weight : nat)
    : list (list (nat * list nat)) :=
  match groups with
  | [] => if Nat.eqb weight 0 then [] else [cur]
  | g :: groups' =>
      let weight := weight + length g.2 in
      if exceeds weight maxweight
      then (cur ++ [g]) :: chunk_loop maxweight groups' [] 0
      else chunk_loop maxweight groups' (cur ++ [g]) weight
  end.

(** The chunks of groups formed by [gen_args_with]. *)
Definition chunks (maxweight : Q) (eids : list nat)
    : list (list (nat * list nat)) :=
  chunk_loop maxweight (groupby eids) [] 0.

(** The slices covered by consecutive chunks, the first one at [start]. *)
Fixpoint spans (start : nat) (chunks : list (list (nat * list nat)))
    : list (nat * nat) :=
  match chunks with
  | [] => []
  | c :: cs =>
      (start, start + weight_of c) :: spans (start + weight_of c) cs
  end.

(** [tiling a b slices]: the slices are not empty, the first one starts at
    [a], each one starts where the one before it stops, the last one stops
    at [b]. *)
Fixpoint tiling (a b : nat) (slices : list (nat * nat)) : Prop :=
  match slices with
  | [] => a = b
  | slc :: rest => slc.1 = a ∧ slc.1 < slc.2 ∧ tiling slc.2 b rest
  end.

(** The rows of every event are contiguous: a row is followed by a row of
    the same event, or its event never comes back. *)
Fixpoint contiguous (eids : list nat) : bool :=
  match eids with
  | [] => true
  | eid :: rest =>
      match rest with
      | [] => true
      | next :: _ => bool_decide (eid = next ∨ eid ∉ rest)
      end && contiguous rest
  end.

(** All the rows of the slice belong to one event. *)
Definition single_group (eids : list nat) (slc : nat * nat) : bool :=
  match read_slice eids slc with
  | [] => true
  | eid :: rest => forallb (Nat.eqb eid) rest
  end.

(** The bound of the specification: the weight of a chunk is at most the
    maximum, unless the chunk is a single event group. *)
Definition spec_bound (maxweight : Q) (eids : list nat) (slc : nat * nat)
    : bool :=
  Qle_bool (qnat (slice_weight slc)) maxweight || single_group eids slc.

End PartitionerSpec.

(** ** Notions used to state the properties of the aggregation *)

Module AggregatorSpec.
Import Accum Aggregator.

(** The records of [alt] that fall under the key [(e, j)] of the group-by
    on [eid] and [kid], and those of the event [e]. *)
Definition keyed (kids : list nat) (alt : list loss_record) (e j : nat)
    : list loss_record :=
  filter (λ r, eid r = e ∧ kids !! aid r = Some j) alt.

Definition total (alt : list loss_record) (e : nat) : list loss_record :=
  filter (λ r, eid r = e) alt.

(** The sums of the columns [loss] and [x] over some records. *)
Definition val (correl : nat) (rs : list loss_record) : lv :=
  vsum zeros lv_add ((λ r, (loss r, x_of correl r)) <$> rs).

(** The row of a group-by sum for a group: none for an empty group. *)
Definition part (correl : nat) (rs : list loss_record) : option lv :=
  match rs with
  | [] => None
  | _ => Some (val correl rs)
  end.

(** The records that contribute to the entry [(e, j)] of the accumulator
    returned by [aggregate_losses]: those of the group [(e, j)] and, for
    the total key [j = K], those of the event [e]. *)
Definition contributions (kids : list nat) (K : nat)
    (alt : list loss_record) (e j : nat) : list loss_record :=
  keyed kids alt e j ++ (if decide (j = K) then total alt e else []).

(** The sum of the losses of some records. *)
Definition lsum (rs : list loss_record) : R :=
  vsum 0%R Rplus (loss <$> rs).

(** The variance that the specification gives for two contributions. *)
Definition combined (correl : nat) (v1 v2 : R) : R :=
  if truthy correl then ((sqrt v1 + sqrt v2) ^ 2)%R else (v1 + v2)%R.

(** The last step of [aggregate_losses] on one entry. *)
Definition post (correl : nat) (v : lv) : lv :=
  if truthy correl then (v.1, (v.2 ^ 2)%R) else v.

(** Addition of optional entries, as in the merge by key. *)
Definition oadd (a b : option lv) : option lv :=
  union_with (λ a b, Some (lv_add a b)) a b.

(** The two components of the entry stored under a key. *)
Definition loss_at (lbe : gmap (nat * nat) lv) (k : nat * nat) : R :=
  (get lbe k).1.

Definition variance_at (lbe : gmap (nat * nat) lv) (k : nat * nat) : R :=
  (get lbe k).2.

(** The sum of [f 0], ..., [f (K - 1)]. *)
Definition sum_keys (K : nat) (f : nat → R) : R :=
  vsum 0%R Rplus (f <$> seq 0 K).

(** The event ids of a batch of records. *)
Definition eids_of (alt : list loss_record) : list nat := eid <$> alt.

(** [a] equals [b] within the relative tolerance [rtol]. *)
Definition within_rtol (rtol a b : R) : Prop :=
  (Rabs (a - b) <= rtol * Rabs b)%R.

(** The standard deviation that a group of records contributes to an entry
    under full correlation: the sum of the standard deviations of the
    records. *)
Definition deviation (rs : list loss_record) : R :=
  vsum 0%R Rplus ((λ r, sqrt (variance r)) <$> rs).

End AggregatorSpec.

(** ** Notions used to state the properties of the task *)

Module TaskSpec.
Import Aggregator Task.

Section TaskSpec.
Context {rng : Type}.
Variable get_output :
  nat → list asset → list gmf_row → option rng
  → option ((string → list loss_record) * option rng).
Variable par : param.
Variable inp : inputs.

(** The loss records that the risk model returns for each taxonomy group,
    in the order of the loop over [groups] started in the state [s]: no
    record for a group that is skipped, [None] when the loop fails. *)
Fixpoint outputs (df : list gmf_row) (s : state (rng := rng))
    (groups : list (nat * list asset))
    : option (list (string → list loss_record)) :=
  match groups with
  | [] => Some []
  | g :: gs =>
      let gmf_df := relevant_rows df g.2 in
      out ← (if Nat.eqb (length gmf_df) 0 then Some (λ _, [])
             else fst <$> get_output g.1 g.2 gmf_df (rndgen s));
      s' ← process_group get_output par inp df s g;
      outs ← outputs df s' gs;
      Some (out :: outs)
  end.
End TaskSpec.

End TaskSpec.

(** ** [_build_agg_loss_table] and the results yielded by the task *)

Module Table.
Import Accum Task Execute.

(** The keys of a dictionary built from [names] by a comprehension: each
    name once, at the place of its first occurrence. *)
Fixpoint dict_keys (names : list string) : list string :=
  match names with
  | [] => []
  | n :: rest => n :: filter (λ m, m ≠ n) (dict_keys rest)
  end.

Section Table.
(** The conversions made by numpy when a value is stored into the columns
    [eid] (of type [U32]) and [kid] (of type [U16]) and when
    [numpy.ones(nnz, U8)] is multiplied by the index of the loss type; what
    they do outside the range of the column type is left open. *)
Variable to_U32 : nat → nat.
Variable to_U16 : nat → nat.
Variable lid_of : nat → nat.

(** The frame built for the loss type of index [lni] from the items of its
    accumulator.  The rows come in the order of the finite map, which need
    not be the insertion order of the dictionary. *)
Definition frame (lni : nat) (d : gmap (nat * nat) lv) : list alt_row :=
  (λ item : (nat * nat) * lv,
     AltRow (to_U32 item.1.1) (to_U16 item.1.2) item.2.1 item.2.2
            (lid_of lni))
    <$> map_to_list d.

(** [_build_agg_loss_table(loss_by_EK1)], for a dictionary whose keys are
    [keys], in this order. *)
Definition _build_agg_loss_table (keys : list string)
    (loss_by_EK1 : gmap string (gmap (nat * nat) lv))
    : gmap string (list alt_row) :=
  foldl (λ alt (item : nat * string),
           match loss_by_EK1 !! item.2 with
           | Some d =>
               let nnz := size d in
               if Nat.eqb nnz 0 then alt
               else <[item.2 := frame item.1 d]> alt
           | None => alt
           end)
        ∅ (imap pair keys).

(** The end of [event_based_risk]: the dictionaries yielded for the
    accumulators [loss_by_AR] and [loss_by_EK1], whose keys are [keys]. *)
Definition yields {rng} (keys : list string) (s : state (rng := rng))
    : list (gmap string value) :=
  (if Nat.eqb (size (loss_by_AR s)) 0 then []
   else [CooList <$> loss_by_AR s])
  ++ (let alt := _build_agg_loss_table keys (loss_by_EK1 s) in
      if Nat.eqb (size alt) 0 then [] else [DataFrame <$> alt]).
End Table.

End Table.

(** ** Notions used to state the properties of [ebrisk] *)

Module ExecuteSpec.
Import Execute.

(** [row] is the row of [gmf_info] that [ebrisk], run as task number [no],
    yields for the computer [c]: its fields are the rupture id, the task
    number, the number of sites, the number of bytes and the elapsed time
    after their conversion to the column types of [gmf_info_dt]. *)
Definition info_row {cell} {casts : dtype_casts} (no : nat)
    (row : gmf_info_row)
    (c : computer (cell := cell)) : Prop :=
  rup_id row = as_U32 (ebrupture_id c) ∧ task_no row = as_U16 no
  ∧ nsites row = as_U16 (num_sids c) ∧ dt row = as_F32 (mon_dt c)
  ∧ ∃ sids, data c !! "sid" = Some sids
            ∧ gmfbytes row
              = as_F32 (INR (length sids * size (data c) * 4)).

(** The computers that returned hazard data: [if len(data)]. *)
Definition with_data {cell} (cs : list (computer (cell := cell)))
    : list (computer (cell := cell)) :=
  filter (λ c, size (data c) ≠ 0) cs.

End ExecuteSpec.

Example gen_args_scenario :
  Partitioner.gen_args 2 [1; 1; 2; 3] = [(0, 3); (3, 4)].
Proof. vm_compute. reflexivity. Qed.

(** * General facts on lists *)

Section ListFacts.
Context {A : Type}.
Implicit Types (l : list A) (ls : list (list A)).

Lemma elem_of_concat x ls : x ∈ concat ls ↔ ∃ l, x ∈ l ∧ l ∈ ls.
Proof.
  induction ls as [|l0 ls IH]; simpl.
  - split; [by intros ?%elem_of_nil | by intros (? & _ & ?%elem_of_nil)].
  - rewrite elem_of_app, IH. split.
    + intros [?|(l & ? & ?)]; [exists l0 | exists l]; split; auto; by constructor.
    + intros (l & Hx & [->|?]%elem_of_cons); [by left | right; eauto].
Qed.

(** Distinct members of a family whose concatenation has no duplicates
    have no element in common. *)
Lemma NoDup_concat_disjoint ls i j l1 l2 x :
  NoDup (concat ls) → i ≠ j →
  ls !! i = Some l1 → ls !! j = Some l2 → x ∈ l1 → x ∈ l2 → False.
Proof.
  revert i j. induction ls as [|l0 ls IH]; intros i j Hnd Hij Hi Hj H1 H2;
    [done|].
  simpl in Hnd. apply NoDup_app in Hnd as (_ & Hdisj & Hnd).
  destruct i as [|i], j as [|j]; simplify_eq/=.
  - apply (Hdisj x H1), elem_of_concat. exists l2. split; [done|].
    by eapply list_elem_of_lookup_2.
  - apply (Hdisj x H2), elem_of_concat. exists l1. split; [done|].
    by eapply list_elem_of_lookup_2.
  - eapply (IH i j); eauto.
Qed.

Lemma read_slice_middle l1 l2 l3 :
  Partitioner.read_slice (l1 ++ l2 ++ l3) (length l1, length l1 + length l2)
  = l2.
Proof.
  unfold Partitioner.read_slice. simpl.
  rewrite drop_app_length.
  replace (length l1 + length l2 - length l1) with (length l2) by lia.
  by rewrite take_app_length.
Qed.
End ListFacts.

(** * Properties of the partitioner *)

Section PartitionerFacts.
Import Partitioner PartitionerSpec.
Implicit Types (eids : list nat) (groups cur : list (nat * list nat)).

Lemma exceeds_true w mw : exceeds w mw = true ↔ (mw < qnat w)%Q.
Proof.
  unfold exceeds, qnat. rewrite negb_true_iff.
  destruct (Qle_bool _ _) eqn:E.
  - apply Qle_bool_iff in E. split; [done | intros Hlt].
    exfalso. apply (Qlt_not_le _ _ Hlt). exact E.
  - split; [intros _ | done]. apply Qnot_le_lt. intros Hle.
    apply Qle_bool_iff in Hle. congruence.
Qed.

Lemma exceeds_false w mw : exceeds w mw = false ↔ (qnat w <= mw)%Q.
Proof.
  unfold exceeds, qnat. rewrite negb_false_iff. apply Qle_bool_iff.
Qed.

Lemma weight_of_app groups1 groups2 :
  weight_of (groups1 ++ groups2) = weight_of groups1 + weight_of groups2.
Proof.
  unfold weight_of, rows_of. by rewrite fmap_app, concat_app, length_app.
Qed.

Lemma weight_of_single g : weight_of [g] = length g.2.
Proof. unfold weight_of, rows_of. simpl. by rewrite app_nil_r. Qed.

Lemma rows_of_app groups1 groups2 :
  rows_of (groups1 ++ groups2) = rows_of groups1 ++ rows_of groups2.
Proof. unfold rows_of. by rewrite fmap_app, concat_app. Qed.

(** *** [itertools.groupby] *)

Lemma groupby_rows eids : rows_of (groupby eids) = eids.
Proof.
  induction eids as [|e l IH]; [done|]. simpl.
  destruct (groupby l) as [|[k g] gs]; [by simplify_eq/=|].
  destruct (Nat.eqb e k); unfold rows_of in *; simpl in *; by rewrite <- IH.
Qed.

Lemma groupby_runs eids : Forall run (groupby eids).
Proof.
  induction eids as [|e l IH]; simpl; [constructor|].
  destruct (groupby l) as [|[k g] gs].
  - constructor; [|constructor]. split; simpl; [done | by repeat constructor].
  - inversion IH as [|? ? [Hne Hk] Hgs]; subst.
    destruct (Nat.eqb_spec e k) as [->|Hek].
    + constructor; [|done]. split; simpl in *; [done | by constructor].
    + constructor; [|by constructor]. split; simpl; [done | auto].
Qed.

Lemma groupby_head e l :
  ∃ g gs, groupby (e :: l) = (e, g) :: gs.
Proof.
  simpl. destruct (groupby l) as [|[k g] gs]; [eauto|].
  destruct (Nat.eqb_spec e k) as [->|]; eauto.
Qed.

Lemma groupby_keys_rows eids k : k ∈ (groupby eids).*1 → k ∈ eids.
Proof.
  intros Hk. rewrite <- (groupby_rows eids).
  apply list_elem_of_fmap in Hk as ([k' g] & -> & Hg).
  pose proof (groupby_runs eids) as Hruns.
  rewrite Forall_forall in Hruns. destruct (Hruns _ Hg) as [Hne Hall].
  simpl in *. destruct g as [|x g]; [done|].
  inversion Hall; subst. unfold rows_of.
  apply elem_of_concat. exists (x :: g). split; [left|].
  apply list_elem_of_fmap. by exists (x, x :: g).
Qed.

(** When the rows of each event are contiguous no two groups share
    their key. *)
Lemma contiguous_keys eids :
  contiguous eids = true → NoDup (groupby eids).*1.
Proof.
  induction eids as [|e l IH]; [constructor|].
  intros Hc. simpl in Hc. apply andb_true_iff in Hc as [Hhd Htl].
  specialize (IH Htl). destruct l as [|y l'].
  { simpl. repeat constructor. set_solver. }
  destruct (groupby_head y l') as (g & gs & Hg).
  change (groupby (e :: y :: l')) with
    (match groupby (y :: l') with
     | (k, group) :: gs =>
         if Nat.eqb e k then (k, e :: group) :: gs
         else (e, [e]) :: (k, group) :: gs
     | [] => [(e, [e])]
     end).
  pose proof (groupby_keys_rows (y :: l') e) as Hin.
  rewrite Hg in *. apply bool_decide_eq_true in Hhd.
  destruct (Nat.eqb_spec e y) as [->|Hne]; [done|].
  destruct Hhd as [|Hnotin]; [done|].
  rewrite fmap_cons. constructor; [|done]. simpl. intros H. by apply Hnotin, Hin.
Qed.

(** *** The chunks behind the slices *)

Lemma runs_weight_0 cur : Forall run cur → weight_of cur = 0 → cur = [].
Proof.
  destruct cur as [|[k g] cur]; [done|]. intros Hr Hw.
  inversion Hr as [|? ? [Hne _] _]; subst. simpl in Hne.
  unfold weight_of, rows_of in Hw. simpl in Hw. rewrite length_app in Hw.
  destruct g; [done | simpl in Hw; lia].
Qed.

Lemma gen_loop_spans mw groups cur start stop weight :
  weight = weight_of cur → stop = start + weight →
  gen_loop mw groups start stop weight
  = spans start (chunk_loop mw groups cur weight).
Proof.
  revert cur start stop weight.
  induction groups as [|[k g] groups IH]; intros cur start stop weight -> ->;
    simpl.
  - by destruct (Nat.eqb (weight_of cur) 0).
  - destruct (exceeds _ _); simpl.
    + rewrite weight_of_app, weight_of_single. simpl.
      rewrite Nat.add_assoc. f_equal. by apply IH.
    + apply IH; [|lia]. by rewrite weight_of_app, weight_of_single.
Qed.

Lemma chunk_loop_concat mw groups cur weight :
  weight = weight_of cur → Forall run (cur ++ groups) →
  concat (chunk_loop mw groups cur weight) = cur ++ groups.
Proof.
  revert cur weight.
  induction groups as [|g groups IH]; intros cur weight -> Hr; simpl.
  - rewrite app_nil_r in *. destruct (Nat.eqb_spec (weight_of cur) 0) as [H0|];
      simpl; [|by rewrite app_nil_r].
    symmetry. by apply runs_weight_0.
  - replace (cur ++ g :: groups) with ((cur ++ [g]) ++ groups) in *
      by by rewrite <- app_assoc.
    destruct (exceeds _ _); simpl.
    + f_equal. apply (IH [] 0); [done|].
      apply Forall_app in Hr. tauto.
    + apply IH; [|done]. by rewrite weight_of_app, weight_of_single.
Qed.

Lemma chunk_loop_nonempty mw groups cur weight :
  weight = weight_of cur →
  Forall (λ c, c ≠ []) (chunk_loop mw groups cur weight).
Proof.
  revert cur weight.
  induction groups as [|g groups IH]; intros cur weight ->; simpl.
  - destruct (Nat.eqb_spec (weight_of cur) 0) as [|Hw]; constructor; [|done].
    by intros ->.
  - destruct (exceeds _ _).
    + constructor; [by destruct cur | by apply (IH [] 0)].
    + apply IH. by rewrite weight_of_app, weight_of_single.
Qed.

Lemma qnat_le n m : n ≤ m → (qnat n <= qnat m)%Q.
Proof. intros. unfold qnat. rewrite <- Zle_Qle. lia. Qed.

(** Without its last group a chunk weighs at most [mw]. *)
Lemma chunk_loop_bound mw groups cur weight :
  weight = weight_of cur → (0 <= mw)%Q → (qnat weight <= mw)%Q →
  Forall (λ c, ∃ init g, c = init ++ [g] ∧ (qnat (weight_of init) <= mw)%Q)
         (chunk_loop mw groups cur weight).
Proof.
  revert cur weight.
  induction groups as [|g groups IH]; intros cur weight -> H0 Hw; simpl.
  - destruct (Nat.eqb_spec (weight_of cur) 0) as [|Hne]; constructor; [|done].
    destruct cur as [|g0 cur0] using rev_ind; [done|].
    exists cur0, g0. split; [done|].
    eapply Qle_trans; [|exact Hw]. apply qnat_le.
    rewrite weight_of_app. lia.
  - destruct (exceeds _ _) eqn:E.
    + constructor; [by eauto | by apply (IH [] 0)].
    + apply IH; [by rewrite weight_of_app, weight_of_single | done |].
      by apply exceeds_false in E.
Qed.

(** Every chunk but the last weighs more than [mw]. *)
Lemma chunk_loop_heavy mw groups cur weight i c :
  weight = weight_of cur →
  chunk_loop mw groups cur weight !! i = Some c →
  S i < length (chunk_loop mw groups cur weight) →
  (mw < qnat (weight_of c))%Q.
Proof.
  revert cur weight i.
  induction groups as [|g groups IH]; intros cur weight i ->; simpl.
  - destruct (Nat.eqb (weight_of cur) 0); simpl; [done|].
    intros _ ?. lia.
  - destruct (exceeds _ _) eqn:E.
    + destruct i as [|i]; simpl.
      * intros [= <-] _. apply exceeds_true in E.
        by rewrite weight_of_app, weight_of_single.
      * intros Hc Hlen. apply (IH [] 0 i); [done | done | lia].
    + apply IH. by rewrite weight_of_app, weight_of_single.
Qed.

(** *** From chunks to slices *)

Lemma rows_of_concat (cs : list (list (nat * list nat))) :
  concat (rows_of <$> cs) = rows_of (concat cs).
Proof.
  induction cs as [|c cs IH]; [done|].
  rewrite fmap_cons. simpl. rewrite rows_of_app. f_equal. exact IH.
Qed.

Lemma spans_length start cs : length (spans start cs) = length cs.
Proof. revert start. induction cs; intros; simpl; auto. Qed.

Lemma spans_lookup start cs i slc :
  spans start cs !! i = Some slc →
  ∃ c, cs !! i = Some c ∧ start ≤ slc.1 ∧ slc.2 = slc.1 + weight_of c.
Proof.
  revert start i. induction cs as [|c cs IH]; intros start i; [done|].
  destruct i as [|i]; simpl.
  - intros [= <-]. exists c. simpl. auto.
  - intros (c' & ? & ? & ?)%IH. exists c'. split_and!; [done | lia | done].
Qed.

Lemma spans_read pre post start cs :
  length pre = start →
  read_slice (pre ++ rows_of (concat cs) ++ post) <$> spans start cs
  = rows_of <$> cs.
Proof.
  revert pre start. induction cs as [|c cs IH]; intros pre start <-; [done|].
  simpl. rewrite rows_of_app, <- app_assoc. f_equal.
  - apply (read_slice_middle pre (rows_of c)).
  - rewrite (app_assoc pre). apply IH. by rewrite length_app.
Qed.

Lemma spans_tiling start cs :
  Forall (λ c, 0 < weight_of c) cs →
  tiling start (start + weight_of (concat cs)) (spans start cs).
Proof.
  revert start. induction cs as [|c cs IH]; intros start Hpos; simpl.
  - unfold weight_of. simpl. lia.
  - inversion Hpos; subst. split_and!; [done | lia |].
    rewrite weight_of_app, Nat.add_assoc. by apply IH.
Qed.

Lemma tiling_bounds a b slices slc :
  tiling a b slices → slc ∈ slices → a ≤ slc.1 ∧ slc.2 ≤ b.
Proof.
  revert a. induction slices as [|s0 slices IH]; intros a Ht Hin;
    [by apply elem_of_nil in Hin|].
  destruct Ht as (<- & Hlt & Ht).
  assert (s0.2 ≤ b) as Hb.
  { clear -Ht. revert Ht. generalize (s0.2).
    induction slices as [|s1 slices IH']; simpl; intros n Ht; [lia|].
    destruct Ht as (? & ? & Ht). apply IH' in Ht. lia. }
  apply elem_of_cons in Hin as [->|Hin]; [lia|].
  destruct (IH _ Ht Hin). lia.
Qed.

Lemma tiling_ordered a b slices i j si sj :
  tiling a b slices → i < j →
  slices !! i = Some si → slices !! j = Some sj → si.2 ≤ sj.1.
Proof.
  revert a i j. induction slices as [|s0 slices IH]; intros a i j Ht Hij;
    [done|].
  destruct Ht as (<- & Hlt & Ht).
  destruct j as [|j]; [lia|]. destruct i as [|i]; simpl.
  - intros [= <-] Hj. apply list_elem_of_lookup_2 in Hj.
    by destruct (tiling_bounds _ _ _ _ Ht Hj).
  - apply (IH _ i j Ht). lia.
Qed.

Lemma gen_args_spans mw eids :
gen_args_with mw eids = spans 0 (chunks mw eids).
Proof. by apply gen_loop_spans. Qed.

Lemma chunks_concat mw eids : concat (chunks mw eids) = groupby eids.
Proof. apply (chunk_loop_concat mw _ [] 0); [done|]. apply groupby_runs. Qed.

Lemma chunks_runs mw eids c : c ∈ chunks mw eids → Forall run c.
Proof.
intros Hc. apply Forall_forall. intros g Hg.
pose proof (groupby_runs eids) as Hr. rewrite Forall_forall in Hr.
apply Hr. rewrite <- (chunks_concat mw). apply elem_of_concat. eauto.
Qed.

Lemma chunks_positive mw eids : Forall (λ c, 0 < weight_of c) (chunks mw eids).
Proof.
apply Forall_forall. intros c Hc.
pose proof (chunk_loop_nonempty mw (groupby eids) [] 0 eq_refl) as Hne.
rewrite Forall_forall in Hne. specialize (Hne c Hc).
destruct (weight_of c) eqn:Hw; [|lia].
exfalso. apply Hne. eapply runs_weight_0; [by eapply chunks_runs | done].
Qed.

(** The rows read through the [i]-th slice are the rows of the [i]-th
  chunk. *)
Lemma slice_chunk mw eids i slc :
gen_args_with mw eids !! i = Some slc →
∃ c, chunks mw eids !! i = Some c
     ∧ read_slice eids slc = rows_of c
     ∧ slc.2 = slc.1 + weight_of c.
Proof.
intros Hi. rewrite gen_args_spans in Hi.
destruct (spans_lookup _ _ _ _ Hi) as (c & Hc & _ & Hw).
exists c. split_and!; [done | | done].
pose proof (spans_read [] [] 0 (chunks mw eids) eq_refl) as Hread.
rewrite chunks_concat, groupby_rows, app_nil_r in Hread. simpl in Hread.
apply (f_equal (λ l, l !! i)) in Hread.
rewrite !list_lookup_fmap, Hi, Hc in Hread. by simplify_eq/=.
Qed.

Lemma run_rows_keys c e : Forall run c → e ∈ rows_of c → e ∈ c.*1.
Proof.
intros Hr (l & He & Hl)%elem_of_concat.
apply list_elem_of_fmap in Hl as ([k g] & -> & Hg).
rewrite Forall_forall in Hr. destruct (Hr _ Hg) as [_ Hall].
simpl in *. rewrite Forall_forall in Hall. rewrite <- (Hall _ He).
apply list_elem_of_fmap. by exists (k, g).
Qed.

Lemma run_single_group eids a b g :
run g → read_slice eids (a, b) = g.2 → single_group eids (a, b) = true.
Proof.
intros [_ Hall] Hread. unfold single_group. rewrite Hread.
destruct (g.2) as [|x l]; [done|].
inversion Hall as [|? ? <- Hl]; subst.
apply forallb_forall. intros y Hy. apply Nat.eqb_eq.
rewrite Forall_forall in Hl. apply Hl. by apply list_elem_of_In.
Qed.

Lemma read_slice_suffix {A} (l l1 l2 : list A) a b :
read_slice l (a, b) = l1 ++ l2 → read_slice l (a + length l1, b) = l2.
Proof.
unfold read_slice. simpl. intros Hab.
rewrite <- drop_drop, Nat.sub_add_distr, <- skipn_firstn_comm, Hab.
by rewrite drop_app_length.
Qed.

End PartitionerFacts.

(** ** The claims on the partitioner *)

Section PartitionerClaims.
Import Partitioner PartitionerSpec.

(** C1, as the code has it.  For every sequence of event ids and every
    positive maximum weight, a chunk of [gen_args] exceeds the maximum by no
    more than its last event group: each slice has a cut [c] such that the
    rows before [c] weigh at most the maximum and the rows from [c] on belong
    to a single event; every chunk but the last weighs strictly more than the
    maximum.  In the end-to-end scenario (four rows of events 1, 1, 2, 3 and
    two tasks, hence maximum weight 2) the chunks are rows 0..2 (events 1 and
    2) and row 3 (event 3). *)
Theorem gen_args_overshoot (maxweight : Q) (eids : list nat) :
  (0 < maxweight)%Q →
  (∀ slc, slc ∈ gen_args_with maxweight eids →
     ∃ c, slc.1 ≤ c < slc.2
          ∧ (qnat (c - slc.1) <= maxweight)%Q
          ∧ single_group eids (c, slc.2) = true)
  ∧ (∀ i slc, gen_args_with maxweight eids !! i = Some slc →
       S i < length (gen_args_with maxweight eids) →
       (maxweight < qnat (slice_weight slc))%Q)
  ∧ maxweight_of 2 [1; 1; 2; 3] == 2
  ∧ gen_args 2 [1; 1; 2; 3] = [(0, 3); (3, 4)].
Proof.
  intros Hpos. split_and!; [| |done|done].
  - intros slc (i & Hi)%list_elem_of_lookup_1.
    destruct (slice_chunk _ _ _ _ Hi) as (c & Hc & Hread & Hw).
    pose proof (chunk_loop_bound maxweight (groupby eids) [] 0 eq_refl
                  (Qlt_le_weak _ _ Hpos) (Qlt_le_weak _ _ Hpos)) as Hb.
    rewrite Forall_forall in Hb.
    apply list_elem_of_lookup_2 in Hc as Hcin.
    destruct (Hb _ Hcin) as (init & g & -> & Hinit).
    pose proof (chunks_runs _ _ _ Hcin) as Hruns.
    apply Forall_app in Hruns as [_ Hg]. inversion Hg as [|? ? Hrun _]; subst.
    rewrite weight_of_app, weight_of_single in Hw.
    exists (slc.1 + weight_of init). split_and!.
    + lia.
    + destruct Hrun as [Hne _]. destruct (g.2); [done | simpl in Hw; lia].
    + by replace (slc.1 + weight_of init - slc.1) with (weight_of init) by lia.
    + eapply run_single_group; [done|].
      rewrite rows_of_app in Hread. destruct slc as [a b]. simpl in *.
      apply (read_slice_suffix eids (rows_of init)).
      rewrite Hread. unfold rows_of at 2. simpl. by rewrite app_nil_r.
  - intros i slc Hi Hlen.
    destruct (slice_chunk _ _ _ _ Hi) as (c & Hc & _ & Hw).
    rewrite gen_args_spans, spans_length in Hlen.
    unfold slice_weight. replace (slc.2 - slc.1) with (weight_of c) by lia.
    by eapply (chunk_loop_heavy maxweight (groupby eids) [] 0 i c).
Qed.

(** C1 as stated fails on the scenario of the specification: the first
    chunk holds the rows of events 1 and 2, it weighs 3 > 2 and is not a
    single event group; the chunks are not rows 0..1 and rows 2..3. *)
Lemma gen_args_bound_counterexample :
  ¬ (∀ slc, slc ∈ gen_args 2 [1; 1; 2; 3] →
       spec_bound (2 # 1) [1; 1; 2; 3] slc = true)
  ∧ gen_args 2 [1; 1; 2; 3] ≠ [(0, 2); (2, 4)].
Proof.
  split; [|by vm_compute].
  intros Hall. specialize (Hall (0, 3)).
  assert ((0, 3) ∈ gen_args 2 [1; 1; 2; 3]) as Hin by (vm_compute; left).
  apply Hall in Hin. vm_compute in Hin. discriminate.
Qed.

Lemma gen_args_overshoot_witness :
  (0 < 2 # 1)%Q
  ∧ (∀ i slc, gen_args_with (2 # 1) [1; 1; 2; 3] !! i = Some slc →
       S i < length (gen_args_with (2 # 1) [1; 1; 2; 3]) →
       (2 # 1 < qnat (slice_weight slc))%Q).
Proof.
  split; [reflexivity|].
  apply (gen_args_overshoot (2 # 1) [1; 1; 2; 3]). reflexivity.
Defined.

(** C3.  For every weight bound and every sequence of event ids, the slices
    yielded by [gen_args] are not empty, start at row 0, each start where
    the previous one stops, and end at the last row; hence they come in
    source order and are pairwise disjoint; reading them one after the
    other gives back the input rows, each once and in order. *)
Theorem gen_args_partition (maxweight : Q) (eids : list nat) :
  tiling 0 (length eids) (gen_args_with maxweight eids)
  ∧ (∀ i j si sj, i < j →
       gen_args_with maxweight eids !! i = Some si →
       gen_args_with maxweight eids !! j = Some sj → si.2 ≤ sj.1)
  ∧ concat (read_slice eids <$> gen_args_with maxweight eids) = eids.
Proof.
  assert (tiling 0 (length eids) (gen_args_with maxweight eids)) as Ht.
  { rewrite gen_args_spans.
    pose proof (spans_tiling 0 (chunks maxweight eids)
                  (chunks_positive maxweight eids)) as Ht.
    rewrite chunks_concat in Ht. unfold weight_of in Ht.
    by rewrite groupby_rows in Ht. }
  split_and!; [done | by eauto using tiling_ordered |].
  rewrite gen_args_spans.
  pose proof (spans_read [] [] 0 (chunks maxweight eids) eq_refl) as Hread.
  rewrite chunks_concat, groupby_rows, app_nil_r in Hread. simpl in Hread.
  by rewrite Hread, rows_of_concat, chunks_concat, groupby_rows.
Qed.

Lemma gen_args_partition_witness :
  concat (read_slice [1; 1; 2; 3] <$> gen_args 2 [1; 1; 2; 3]) = [1; 1; 2; 3].
Proof.
  apply (gen_args_partition (maxweight_of 2 [1; 1; 2; 3]) [1; 1; 2; 3]).
Defined.

(** C4.  When the rows of each event are contiguous, two different slices
    yielded by [gen_args] never hold rows of the same event. *)
Theorem gen_args_atomic (maxweight : Q) (eids : list nat)
    (i j : nat) (si sj : nat * nat) (e : nat) :
  contiguous eids = true →
  i ≠ j →
  gen_args_with maxweight eids !! i = Some si →
  gen_args_with maxweight eids !! j = Some sj →
  e ∈ read_slice eids si →
  e ∉ read_slice eids sj.
Proof.
  intros Hc Hij Hi Hj Hei Hej.
  destruct (slice_chunk _ _ _ _ Hi) as (ci & Hci & Hri & _).
  destruct (slice_chunk _ _ _ _ Hj) as (cj & Hcj & Hrj & _).
  rewrite Hri in Hei. rewrite Hrj in Hej.
  apply run_rows_keys in Hei;
    [|eapply chunks_runs; by eapply list_elem_of_lookup_2].
  apply run_rows_keys in Hej;
    [|eapply chunks_runs; by eapply list_elem_of_lookup_2].
  apply contiguous_keys in Hc.
  rewrite <- (chunks_concat maxweight) in Hc.
  assert ((concat (chunks maxweight eids)).*1
          = concat ((λ c : list (nat * list nat), c.*1)
                      <$> chunks maxweight eids)) as Heq.
  { generalize (chunks maxweight eids). intros cs.
    induction cs as [|c cs IH]; [done|].
    rewrite fmap_cons. simpl. rewrite fmap_app. f_equal. exact IH. }
  rewrite Heq in Hc.
  eapply (NoDup_concat_disjoint _ i j _ _ e Hc Hij); [| |exact Hei|exact Hej].
  - by rewrite list_lookup_fmap, Hci.
  - by rewrite list_lookup_fmap, Hcj.
Qed.

Lemma gen_args_atomic_witness : 1 ∉ read_slice [1; 1; 2; 3] (3, 4).
Proof.
  apply (gen_args_atomic (maxweight_of 2 [1; 1; 2; 3]) [1; 1; 2; 3]
           0 1 (0, 3) (3, 4) 1).
  - reflexivity.
  - lia.
  - reflexivity.
  - reflexivity.
  - vm_compute. left.
Defined.

End PartitionerClaims.

(** * Properties of the accumulators and of the group-by sums *)

Section AccumFacts.
Import Accum.
Context {K : Type} `{Countable K}.
Implicit Types (d : gmap K lv) (tot : list (K * lv)) (v : lv).

Lemma lv_add_zeros_l v : lv_add zeros v = v.
Proof. destruct v. unfold lv_add, zeros. simpl. f_equal; lra. Qed.

Lemma lv_add_zeros_r v : lv_add v zeros = v.
Proof. destruct v. unfold lv_add, zeros. simpl. f_equal; lra. Qed.

Lemma lv_add_assoc a b c : lv_add a (lv_add b c) = lv_add (lv_add a b) c.
Proof. unfold lv_add. simpl. f_equal; lra. Qed.

Lemma lookup_add_at d k v i :
  add_at d k v !! i
  = if decide (k = i) then Some (lv_add (get d k) v) else d !! i.
Proof. unfold add_at. apply lookup_insert. Qed.

(** Adding the rows of a group-by, whose keys are distinct, is the merge by
    key with the map of these rows. *)
Lemma add_all_iadd d tot :
  NoDup tot.*1 → add_all d tot = iadd d (list_to_map tot).
Proof.
  revert d. induction tot as [|[k v] tot IH]; intros d Hnd.
  - unfold iadd. simpl. symmetry. apply (right_id _ _).
  - inversion Hnd as [|? ? Hk Hnd']; subst.
    change (add_all d ((k, v) :: tot)) with (add_all (add_at d k v) tot).
    rewrite (IH _ Hnd'). apply map_eq. intros i. unfold iadd.
    rewrite !lookup_union_with, lookup_add_at. simpl.
    rewrite lookup_insert. destruct (decide (k = i)) as [->|Hne]; [|done].
    apply not_elem_of_list_to_map_1 in Hk. rewrite Hk. unfold get.
    destruct (d !! i); simpl; [done|]. by rewrite lv_add_zeros_l.
Qed.

Lemma iadd_empty_l d : iadd ∅ d = d.
Proof. unfold iadd. apply (left_id _ _). Qed.

Lemma lookup_iadd d1 d2 i :
  iadd d1 d2 !! i = union_with (λ a b, Some (lv_add a b)) (d1 !! i) (d2 !! i).
Proof. apply lookup_union_with. Qed.
End AccumFacts.

Section GroupByFacts.
Import Accum.
Context {K : Type} `{Countable K}.
Context (key_le : relation K) `{∀ a b, Decision (key_le a b)}.
Context {V : Type} (vzero : V) (vadd : V → V → V).
Implicit Types (rows : list (K * V)).

Lemma groupby_sum_keys rows :
  (groupby_sum key_le vzero vadd rows).*1
  = merge_sort key_le (remove_dups rows.*1).
Proof.
  unfold groupby_sum. generalize (merge_sort key_le (remove_dups rows.*1)).
  intros ks. induction ks as [|k ks IH]; [done|].
  rewrite !fmap_cons. simpl. f_equal. exact IH.
Qed.

Lemma groupby_sum_NoDup rows :
  NoDup (groupby_sum key_le vzero vadd rows).*1.
Proof.
  rewrite groupby_sum_keys, merge_sort_Permutation. apply NoDup_remove_dups.
Qed.

Lemma group_of_nil k rows : k ∉ rows.*1 → group_of k rows = [].
Proof.
  intros Hk. unfold group_of.
  induction rows as [|[k' v] rows IH]; [done|].
  rewrite fmap_cons in Hk. apply not_elem_of_cons in Hk as [Hne Hk].
  rewrite filter_cons. simpl. destruct (decide (k' = k)); [done | auto].
Qed.

(** The map of the rows of a group-by sum. *)
Lemma groupby_sum_lookup rows k :
  (list_to_map (groupby_sum key_le vzero vadd rows) : gmap K V) !! k
  = match group_of k rows with
    | [] => None
    | vs => Some (vsum vzero vadd vs)
    end.
Proof.
  destruct (decide (k ∈ rows.*1)) as [Hin|Hout].
  - assert (group_of k rows ≠ []) as Hne.
    { unfold group_of. apply list_elem_of_fmap in Hin as ([k' v] & Hk & Hr).
      simpl in Hk. subst k. intros Hnil. apply fmap_nil_inv in Hnil.
      assert ((k', v) ∈ filter (λ r : K * V, r.1 = k') rows) as Hf
        by by apply list_elem_of_filter.
      rewrite Hnil in Hf. by apply elem_of_nil in Hf. }
    transitivity (Some (vsum vzero vadd (group_of k rows)));
      [|by destruct (group_of k rows)].
    apply elem_of_list_to_map; [apply groupby_sum_NoDup|].
    unfold groupby_sum. apply list_elem_of_fmap. exists k. split; [done|].
    by rewrite merge_sort_Permutation, elem_of_remove_dups.
  - rewrite (group_of_nil _ _ Hout).
    apply not_elem_of_list_to_map_1.
    by rewrite groupby_sum_keys, merge_sort_Permutation, elem_of_remove_dups.
Qed.
End GroupByFacts.

(** * Properties of [aggregate_losses] *)

Section AggregatorFacts.
Import Accum Aggregator AggregatorSpec.
Implicit Types (alt : list loss_record) (kids : list nat).

Lemma group_of_ldf correl alt e :
  group_of e (ldf correl alt)
  = (λ r, (loss r, x_of correl r)) <$> total alt e.
Proof.
  unfold group_of, ldf, total. induction alt as [|r alt IH]; [done|].
  rewrite fmap_cons, !filter_cons. simpl.
  destruct (decide (eid r = e)); [rewrite !fmap_cons; simpl; f_equal|];
    exact IH.
Qed.

Lemma group_of_ldf_kid correl kids alt rows e j :
  ldf_kid correl kids alt = Some rows →
  group_of (e, j) rows
  = (λ r, (loss r, x_of correl r)) <$> keyed kids alt e j.
Proof.
  unfold ldf_kid. rewrite mapM_Some. unfold group_of, keyed.
  induction 1 as [|r row alt rows Hrow _ IH]; [done|].
  rewrite !filter_cons.
  destruct (kids !! aid r) as [k|] eqn:Hk; simplify_eq/=.
  destruct (decide ((eid r, k) = (e, j))) as [Heq|Hne].
  - simplify_eq. rewrite decide_True by done.
    rewrite !fmap_cons. simpl. f_equal. exact IH.
  - rewrite decide_False; [exact IH|]. intros [? ?]. simplify_eq.
Qed.

Lemma keyed_no_kids alt e j : keyed [] alt e j = [].
Proof.
  unfold keyed. induction alt as [|r alt IH]; [done|].
  rewrite filter_cons. rewrite decide_False; [done|]. by intros [_ ?].
Qed.

Lemma part_fmap correl (rs : list loss_record) :
  match (λ r, (loss r, x_of correl r)) <$> rs with
  | [] => None
  | vs => Some (vsum zeros lv_add vs)
  end = part correl rs.
Proof. by destruct rs. Qed.

Lemma lookup_total_rows (tot : list (nat * lv)) K e j :
  (list_to_map ((λ r : nat * lv, ((r.1, K), r.2)) <$> tot)
     : gmap (nat * nat) lv) !! (e, j)
  = if decide (j = K) then (list_to_map tot : gmap nat lv) !! e else None.
Proof.
  induction tot as [|[e0 v0] tot IH].
  - simpl. rewrite !lookup_empty. by destruct (decide (j = K)).
  - rewrite fmap_cons, !list_to_map_cons. cbn [fst snd].
    rewrite lookup_insert, IH.
    destruct (decide (j = K)) as [->|Hne].
    + rewrite lookup_insert.
      destruct (decide (e0 = e)) as [->|]; [by rewrite decide_True|].
      rewrite decide_False; [done | congruence].
    + rewrite decide_False; [done | congruence].
Qed.

Lemma total_rows_NoDup (tot : list (nat * lv)) (K : nat) :
  NoDup tot.*1 → NoDup ((λ r : nat * lv, ((r.1, K), r.2)) <$> tot).*1.
Proof.
  intros Hnd.
  assert (((λ r : nat * lv, ((r.1, K), r.2)) <$> tot).*1
          = (λ e : nat, (e, K)) <$> tot.*1) as ->.
  { clear Hnd. induction tot as [|r tot IH]; [done|].
    rewrite !fmap_cons. simpl. f_equal. exact IH. }
  apply NoDup_fmap_2; [|done]. intros ? ? ?. by simplify_eq.
Qed.

(** The entry stored by [aggregate_losses] under each key: the sums over
    the records of the key added to, for the key [K], the sums over the
    records of the event, with the second component squared at the end in
    the correlated case. *)
Lemma aggregate_losses_lookup alt K kids correl lbe e j :
  aggregate_losses alt K kids correl = Some lbe →
  lbe !! (e, j)
  = post correl <$> oadd (part correl (keyed kids alt e j))
                         (if decide (j = K) then part correl (total alt e)
                          else None).
Proof.
  unfold aggregate_losses. intros Hagg.
  assert (∃ lbe1 : gmap (nat * nat) lv,
    lbe1 !! (e, j) = part correl (keyed kids alt e j)
    ∧ Some (if truthy correl
            then restore_variances
                   (add_all lbe1 ((λ r : nat * lv, ((r.1, K), r.2)) <$>
                      groupby_sum le zeros lv_add (ldf correl alt)))
            else add_all lbe1 ((λ r : nat * lv, ((r.1, K), r.2)) <$>
                      groupby_sum le zeros lv_add (ldf correl alt)))
      = Some lbe) as (lbe1 & Hl1 & Heq).
  { destruct (Nat.eqb_spec (length kids) 0) as [Hlen|Hlen].
    - exists ∅. split; [|exact Hagg].
      apply nil_length_inv in Hlen. subst kids.
      by rewrite keyed_no_kids, lookup_empty.
    - destruct (ldf_kid correl kids alt) as [rows|] eqn:Hrows; [|done].
      eexists. split; [|exact Hagg].
      rewrite add_all_iadd by apply groupby_sum_NoDup.
      rewrite iadd_empty_l, groupby_sum_lookup.
      rewrite (group_of_ldf_kid _ _ _ _ _ _ Hrows). apply part_fmap. }
  clear Hagg.
  assert (add_all lbe1 ((λ r : nat * lv, ((r.1, K), r.2)) <$>
            groupby_sum le zeros lv_add (ldf correl alt)) !! (e, j)
          = oadd (part correl (keyed kids alt e j))
                 (if decide (j = K) then part correl (total alt e) else None))
    as Hraw.
  { rewrite add_all_iadd by apply total_rows_NoDup, groupby_sum_NoDup.
    rewrite lookup_iadd, Hl1, lookup_total_rows. unfold oadd.
    destruct (decide (j = K)); [|done].
    by rewrite groupby_sum_lookup, group_of_ldf, part_fmap. }
  unfold post. destruct (truthy correl); simplify_eq.
  - unfold restore_variances. by rewrite lookup_fmap, Hraw.
  - rewrite Hraw. by destruct (oadd _ _).
Qed.

(** [aggregate_losses] fails only when it indexes [kids] out of range. *)
Lemma aggregate_losses_Some alt K kids correl :
  is_Some (aggregate_losses alt K kids correl)
  ↔ kids = [] ∨ Forall (λ r, aid r < length kids) alt.
Proof.
  unfold aggregate_losses.
  destruct (Nat.eqb_spec (length kids) 0) as [Hlen|Hlen]; simpl.
  - apply nil_length_inv in Hlen. split; [by left | by eauto].
  - assert (is_Some (ldf_kid correl kids alt)
            ↔ Forall (λ r, aid r < length kids) alt) as Hiff.
    { unfold ldf_kid. rewrite mapM_is_Some. apply Forall_iff. intros r.
      rewrite <- lookup_lt_is_Some.
      split.
      - intros [y Hy]. apply bind_Some in Hy as (k & Hk & _). eauto.
      - intros [k Hk]. eexists. apply bind_Some. eauto. }
    destruct (ldf_kid correl kids alt) as [rows|]; simpl.
    + split; [intros _; right; by apply Hiff | eauto].
    + split; [by intros [? ?]|]. intros [->|HF]; [done|].
      by apply Hiff in HF as [? ?].
Qed.

Lemma val_app correl (a b : list loss_record) :
  val correl (a ++ b) = lv_add (val correl a) (val correl b).
Proof.
  unfold val. induction a as [|r a IH].
  - simpl. by rewrite lv_add_zeros_l.
  - rewrite <- app_comm_cons, !fmap_cons. simpl. rewrite IH.
    apply lv_add_assoc.
Qed.

Lemma part_app correl (a b : list loss_record) :
  oadd (part correl a) (part correl b) = part correl (a ++ b).
Proof.
  destruct a as [|r a]; [by destruct b|].
  destruct b as [|r' b]; [by rewrite app_nil_r|].
  unfold oadd. simpl. f_equal. symmetry. apply (val_app correl (r :: a)).
Qed.

Lemma aggregate_losses_entry alt K kids correl lbe e j :
  aggregate_losses alt K kids correl = Some lbe →
  lbe !! (e, j)
  = post correl <$> part correl (contributions kids K alt e j).
Proof.
  intros Hagg. rewrite (aggregate_losses_lookup _ _ _ _ _ _ _ Hagg).
  unfold contributions. f_equal.
  destruct (decide (j = K)); [apply part_app|].
  rewrite app_nil_r. by destruct (part _ _).
Qed.

Lemma val_fst correl (rs : list loss_record) : (val correl rs).1 = lsum rs.
Proof.
  unfold val, lsum. induction rs as [|r rs IH]; [done|].
  rewrite !fmap_cons. simpl. by rewrite IH.
Qed.

Lemma lsum_app (a b : list loss_record) : lsum (a ++ b) = (lsum a + lsum b)%R.
Proof.
  unfold lsum. rewrite fmap_app.
  generalize (loss <$> a) (loss <$> b). intros xs ys.
  induction xs as [|x xs IH]; simpl; [lra|]. rewrite IH. lra.
Qed.

(** The loss stored under a key is the sum of the losses that contribute
    to it, in both correlation modes. *)
Lemma loss_at_entry alt K kids correl lbe e j :
  aggregate_losses alt K kids correl = Some lbe →
  loss_at lbe (e, j) = lsum (contributions kids K alt e j).
Proof.
  intros Hagg. unfold loss_at, get.
  rewrite (aggregate_losses_entry _ _ _ _ _ _ _ Hagg).
  destruct (contributions kids K alt e j) as [|r rs] eqn:Hc; [done|].
  rewrite <- (val_fst correl (r :: rs)). unfold part, post.
  by destruct (truthy correl).
Qed.

Lemma keyed_in_range kids alt e j :
  keyed kids alt e j ≠ [] → ∃ a, kids !! a = Some j.
Proof.
  unfold keyed. intros Hne. destruct (filter _ alt) as [|r rs] eqn:Hf; [done|].
  assert (r ∈ filter (λ r, eid r = e ∧ kids !! aid r = Some j) alt) as Hr
    by (rewrite Hf; left).
  apply list_elem_of_filter in Hr as [[_ Hk] _]. eauto.
Qed.

Lemma keyed_total_key kids K alt e :
  Forall (λ k, k < K) kids → keyed kids alt e K = [].
Proof.
  intros Hk. destruct (keyed kids alt e K) as [|r rs] eqn:Hf; [done|].
  destruct (keyed_in_range kids alt e K) as [a Ha]; [by rewrite Hf|].
  rewrite Forall_forall in Hk. apply list_elem_of_lookup_2, Hk in Ha. lia.
Qed.

Lemma no_event_no_records alt e :
  e ∉ eids_of alt → total alt e = [] ∧ ∀ kids j, keyed kids alt e j = [].
Proof.
  intros He. unfold total, keyed, eids_of in *.
  induction alt as [|r alt IH]; [done|].
  rewrite fmap_cons in He. apply not_elem_of_cons in He as [Hne He].
  destruct (IH He) as [IH1 IH2]. split; [|intros kids j; specialize (IH2 kids j)].
  - rewrite filter_cons, decide_False; [done | congruence].
  - rewrite filter_cons, decide_False; [done|]. intros [? _]. congruence.
Qed.

(** *** Sums over the explicit keys *)

Local Ltac seq_step a n :=
  change (seq a (S n)) with (a :: seq (S a) n);
  rewrite !fmap_cons; cbn [foldr].

Lemma sum_seq_ext (f g : nat → R) a n :
  (∀ k, a ≤ k < a + n → f k = g k) →
  vsum 0%R Rplus (f <$> seq a n) = vsum 0%R Rplus (g <$> seq a n).
Proof.
  unfold vsum. revert a. induction n as [|n IH]; intros a Hfg; [done|].
  seq_step a n. rewrite Hfg by lia. f_equal. apply IH.
  intros k ?. apply Hfg. lia.
Qed.

Lemma sum_seq_plus (f g : nat → R) a n :
  vsum 0%R Rplus ((λ k, (f k + g k)%R) <$> seq a n)
  = (vsum 0%R Rplus (f <$> seq a n) + vsum 0%R Rplus (g <$> seq a n))%R.
Proof.
  unfold vsum. revert a. induction n as [|n IH]; intros a; [simpl; lra|].
  seq_step a n. rewrite IH. lra.
Qed.

Lemma sum_seq_zero a n : vsum 0%R Rplus ((λ _, 0%R) <$> seq a n) = 0%R.
Proof.
  unfold vsum. revert a. induction n as [|n IH]; intros a; [done|].
  seq_step a n. rewrite IH. lra.
Qed.

Lemma sum_seq_single (c : R) k0 a n :
  vsum 0%R Rplus ((λ k, if decide (k = k0) then c else 0%R) <$> seq a n)
  = if decide (a ≤ k0 < a + n) then c else 0%R.
Proof.
  unfold vsum. revert a. induction n as [|n IH]; intros a.
  - simpl. rewrite decide_False; [done | lia].
  - seq_step a n. rewrite IH. destruct (decide (a = k0)) as [->|Hne].
    + rewrite decide_False by lia. rewrite decide_True by lia. lra.
    + destruct (decide (S a ≤ k0 < S a + n)).
      * rewrite decide_True by lia. lra.
      * rewrite decide_False by lia. lra.
Qed.

(** Each record of an event falls under exactly one explicit key. *)
Lemma sum_keys_keyed kids K alt e :
  Forall (λ k, k < K) kids →
  Forall (λ r, aid r < length kids) alt →
  sum_keys K (λ k, lsum (keyed kids alt e k)) = lsum (total alt e).
Proof.
  intros Hk Halt. unfold sum_keys.
  induction Halt as [|r alt Hr _ IH].
  - unfold keyed, total, lsum. simpl. apply sum_seq_zero.
  - apply lookup_lt_is_Some in Hr as [k0 Hk0].
    assert (k0 < K) as Hlt.
    { rewrite Forall_forall in Hk. apply Hk. by eapply list_elem_of_lookup_2. }
    unfold total. rewrite filter_cons. fold (total alt e).
    destruct (decide (eid r = e)) as [He|He].
    + rewrite (sum_seq_ext _
        (λ k, ((if decide (k = k0) then loss r else 0) + lsum (keyed kids alt e k))%R)).
      * rewrite sum_seq_plus, sum_seq_single, IH.
        rewrite decide_True by lia. unfold lsum. by rewrite fmap_cons.
      * intros k _. unfold keyed. rewrite filter_cons.
        destruct (decide (k = k0)) as [->|Hne].
        -- rewrite decide_True by done. unfold lsum. by rewrite fmap_cons.
        -- rewrite decide_False; [lra|]. intros [_ ?]. congruence.
    + rewrite <- IH. apply sum_seq_ext. intros k _. unfold keyed.
      rewrite filter_cons, decide_False; [done|]. by intros [? _].
Qed.
End AggregatorFacts.

(** ** The claims on [aggregate_losses] *)

Section AggregatorClaims.
Import Accum Aggregator AggregatorSpec.

(** C2.  When exactly two records, of variances [v1] and [v2], contribute
    to the entry [(e, j)] within one call of [aggregate_losses], the variance
    stored under [(e, j)] is [v1 + v2] for a correlation flag 0 and
    [(sqrt v1 + sqrt v2) ^ 2] for a correlation flag 1 (any non zero flag),
    whatever other records the batch holds. *)
Theorem aggregate_losses_two_variances
    (alt : list loss_record) (K : nat) (kids : list nat) (correl : nat)
    (e j : nat) (r1 r2 : loss_record) :
  kids = [] ∨ Forall (λ r, aid r < length kids) alt →
  contributions kids K alt e j = [r1; r2] →
  (0 <= variance r1)%R → (0 <= variance r2)%R →
  ∃ lbe, aggregate_losses alt K kids correl = Some lbe
         ∧ variance_at lbe (e, j)
           = combined correl (variance r1) (variance r2).
Proof.
  intros Hok Hc _ _.
  apply aggregate_losses_Some with (K := K) (correl := correl) in Hok
    as [lbe Hagg].
  exists lbe. split; [done|]. unfold variance_at, get.
  rewrite (aggregate_losses_entry _ _ _ _ _ _ _ Hagg), Hc.
  unfold part, post, combined, val, x_of, vsum.
  destruct (truthy correl); simpl; ring.
Qed.

Lemma aggregate_losses_two_variances_witness :
  ∃ lbe,
    aggregate_losses [LossRecord 1 0 5 4; LossRecord 1 1 7 9; LossRecord 2 0 1 1]
                     1 [0; 0] 1 = Some lbe
    ∧ variance_at lbe (1, 0) = combined 1 4 9.
Proof.
  apply (aggregate_losses_two_variances
           [LossRecord 1 0 5 4; LossRecord 1 1 7 9; LossRecord 2 0 1 1]
           1 [0; 0] 1 1 0 (LossRecord 1 0 5 4) (LossRecord 1 1 7 9)).
  - right. repeat constructor.
  - reflexivity.
  - simpl. lra.
  - simpl. lra.
Defined.

(** C5 as stated fails when no aggregation key is configured: with [K = 0]
    and no [kids] the accumulator holds the loss of the event under the key
    0 = [K], while the sum over the explicit keys is empty; the two differ
    by more than the relative tolerance 1e-6 as well. *)
Lemma total_consistency_counterexample :
  ∃ lbe,
    aggregate_losses [LossRecord 1 0 1 0] 0 [] 0 = Some lbe
    ∧ sum_keys 0 (λ k, loss_at lbe (1, k)) ≠ loss_at lbe (1, 0)
    ∧ ¬ within_rtol (1 / 10 ^ 6)
          (sum_keys 0 (λ k, loss_at lbe (1, k))) (loss_at lbe (1, 0)).
Proof.
  destruct (proj2 (aggregate_losses_Some [LossRecord 1 0 1 0] 0 [] 0))
    as [lbe Hagg]; [by left|].
  exists lbe. split; [done|].
  assert (loss_at lbe (1, 0) = 1%R) as ->.
  { rewrite (loss_at_entry _ _ _ _ _ _ _ Hagg).
    unfold contributions, keyed, total, lsum, vsum. simpl. lra. }
  assert (sum_keys 0 (λ k, loss_at lbe (1, k)) = 0%R) as -> by done.
  split; [lra|]. unfold within_rtol.
  replace (0 - 1)%R with (- (1))%R by lra.
  rewrite Rabs_Ropp, Rabs_R1. lra.
Qed.

(** C5, as the code has it.  When aggregation keys are configured ([kids]
    is not empty and every key is one of 0..K-1), in the accumulator
    returned by [aggregate_losses] the losses stored for an event under the
    keys 0..K-1 add up to the loss stored under the total key [K], in both
    correlation modes: exactly, the float32 values being real numbers in
    this development, and therefore within the relative tolerance 1e-6.
    When no aggregation key is configured ([K = 0] and no [kids]) the
    accumulator holds only the totals, under the key 0: one entry for each
    event of the batch, with the sum of the losses of its records. *)
Theorem total_consistency
    (alt : list loss_record) (K : nat) (kids : list nat) (correl : nat)
    (e : nat) :
  (kids ≠ [] →
   Forall (λ k, k < K) kids →
   Forall (λ r, aid r < length kids) alt →
   ∃ lbe, aggregate_losses alt K kids correl = Some lbe
          ∧ sum_keys K (λ k, loss_at lbe (e, k)) = loss_at lbe (e, K)
          ∧ within_rtol (1 / 10 ^ 6)
              (sum_keys K (λ k, loss_at lbe (e, k))) (loss_at lbe (e, K)))
  ∧ (∃ lbe, aggregate_losses alt 0 [] correl = Some lbe
            ∧ (∀ e' j, is_Some (lbe !! (e', j))
                       ↔ j = 0 ∧ e' ∈ eids_of alt)
            ∧ loss_at lbe (e, 0) = lsum (total alt e)).
Proof.
  split.
  - intros _ Hk Halt.
    destruct (proj2 (aggregate_losses_Some alt K kids correl)) as [lbe Hagg];
      [by right|].
    exists lbe. split; [done|].
    assert (sum_keys K (λ k, loss_at lbe (e, k)) = loss_at lbe (e, K)) as Heq.
    { rewrite (loss_at_entry _ _ _ _ _ _ _ Hagg). unfold contributions at 1.
      rewrite decide_True by done. rewrite (keyed_total_key _ _ _ _ Hk). simpl.
      rewrite <- (sum_keys_keyed kids K alt e Hk Halt).
      apply sum_seq_ext. intros k Hlt.
      rewrite (loss_at_entry _ _ _ _ _ _ _ Hagg). unfold contributions.
      rewrite decide_False by lia. by rewrite app_nil_r. }
    split; [done|]. unfold within_rtol. rewrite Heq, Rminus_diag, Rabs_R0.
    pose proof (Rabs_pos (loss_at lbe (e, K))). nra.
  - destruct (proj2 (aggregate_losses_Some alt 0 [] correl)) as [lbe Hagg];
      [by left|].
    exists lbe. split; [done|]. split.
    + intros e' j. rewrite (aggregate_losses_entry _ _ _ _ _ _ _ Hagg).
      rewrite fmap_is_Some. unfold contributions. rewrite keyed_no_kids.
      simpl. destruct (decide (j = 0)) as [->|Hj].
      * destruct (decide (e' ∈ eids_of alt)) as [Hin|Hnotin].
        -- unfold eids_of in Hin.
           apply list_elem_of_fmap in Hin as (r & -> & Hr).
           assert (r ∈ total alt (eid r)) as Hrt
             by by apply list_elem_of_filter.
           destruct (total alt (eid r)) as [|r0 rs];
             [by apply elem_of_nil in Hrt|].
           simpl. split; [intros _; split; [done|]|by eauto].
           apply list_elem_of_fmap. by exists r.
        -- destruct (no_event_no_records alt e' Hnotin) as [-> _]. simpl.
           split; [by intros [? ?] | by intros [_ ?]].
      * simpl. split; [by intros [? ?] | by intros [? _]].
    + rewrite (loss_at_entry _ _ _ _ _ _ _ Hagg). unfold contributions.
      by rewrite keyed_no_kids, decide_True.
Qed.

Lemma total_consistency_witness :
  (∃ lbe,
     aggregate_losses [LossRecord 1 0 5 4; LossRecord 1 1 7 9; LossRecord 2 0 1 1]
                      2 [0; 1] 0 = Some lbe
     ∧ sum_keys 2 (λ k, loss_at lbe (1, k)) = loss_at lbe (1, 2)
     ∧ within_rtol (1 / 10 ^ 6)
         (sum_keys 2 (λ k, loss_at lbe (1, k))) (loss_at lbe (1, 2)))
  ∧ (∃ lbe,
       aggregate_losses [LossRecord 1 0 5 4; LossRecord 1 1 7 9; LossRecord 2 0 1 1]
                        0 [] 0 = Some lbe
       ∧ (∀ e' j, is_Some (lbe !! (e', j))
                  ↔ j = 0
                    ∧ e' ∈ eids_of [LossRecord 1 0 5 4; LossRecord 1 1 7 9;
                                    LossRecord 2 0 1 1])
       ∧ loss_at lbe (1, 0)
         = lsum (total [LossRecord 1 0 5 4; LossRecord 1 1 7 9;
                        LossRecord 2 0 1 1] 1)).
Proof.
  destruct (total_consistency
              [LossRecord 1 0 5 4; LossRecord 1 1 7 9; LossRecord 2 0 1 1]
              2 [0; 1] 0 1) as [Hkeys Htotal].
  split; [|exact Htotal].
  apply Hkeys.
  - discriminate.
  - repeat constructor.
  - repeat constructor.
Defined.

Lemma aggregate_losses_merge_disjoint
    (A B : list loss_record) (K : nat) (kids : list nat) (correl : nat)
    (la lb lab : gmap (nat * nat) lv) :
  aggregate_losses A K kids correl = Some la →
  aggregate_losses B K kids correl = Some lb →
  aggregate_losses (A ++ B) K kids correl = Some lab →
  (∀ e, e ∈ eids_of A → e ∉ eids_of B) →
  iadd la lb = lab.
Proof.
  intros Ha Hb Hab Hdisj.
  apply map_eq. intros [e j]. rewrite lookup_iadd.
  rewrite (aggregate_losses_entry _ _ _ _ _ _ _ Ha).
  rewrite (aggregate_losses_entry _ _ _ _ _ _ _ Hb).
  rewrite (aggregate_losses_entry _ _ _ _ _ _ _ Hab).
  unfold contributions, keyed, total. rewrite !filter_app.
  fold (keyed kids A e j) (keyed kids B e j) (total A e) (total B e).
  assert ((if decide (j = K) then [] else []) = @nil loss_record) as Hnil
    by by destruct (decide (j = K)).
  destruct (decide (e ∈ eids_of A)) as [HA|HA].
  - destruct (no_event_no_records B e (Hdisj e HA)) as [-> Hkb].
    rewrite Hkb, !app_nil_r, Hnil. simpl. by destruct (post correl <$> _).
  - destruct (no_event_no_records A e HA) as [-> Hka].
    rewrite Hka, Hnil. simpl. by destruct (post correl <$> _).
Qed.

(** C7.  For two batches of records [A] and [B] without a common event id,
    merging by key the accumulator of [A] with that of [B] gives the
    accumulator of [A] followed by [B]: the same entries, with the same
    loss component (and here the same variance too), in both correlation
    modes and in real arithmetic. *)
Theorem aggregate_losses_additive
    (A B : list loss_record) (K : nat) (kids : list nat) (correl : nat) :
  kids = [] ∨ Forall (λ r, aid r < length kids) (A ++ B) →
  (∀ e, e ∈ eids_of A → e ∉ eids_of B) →
  ∃ la lb lab,
    aggregate_losses A K kids correl = Some la
    ∧ aggregate_losses B K kids correl = Some lb
    ∧ aggregate_losses (A ++ B) K kids correl = Some lab
    ∧ ∀ key, iadd la lb !! key = lab !! key
             ∧ loss_at (iadd la lb) key = loss_at lab key.
Proof.
  intros Hok Hdisj.
  destruct (proj2 (aggregate_losses_Some A K kids correl)) as [la Ha].
  { destruct Hok as [?|[? _]%Forall_app]; auto. }
  destruct (proj2 (aggregate_losses_Some B K kids correl)) as [lb Hb].
  { destruct Hok as [?|[_ ?]%Forall_app]; auto. }
  destruct (proj2 (aggregate_losses_Some (A ++ B) K kids correl) Hok)
    as [lab Hab].
  exists la, lb, lab. split_and!; [done..|].
  intros key.
  by rewrite (aggregate_losses_merge_disjoint A B K kids correl la lb lab).
Qed.

Lemma aggregate_losses_additive_witness :
  ∃ la lb lab,
    aggregate_losses [LossRecord 1 0 5 4; LossRecord 1 1 7 9] 2 [0; 1] 1
    = Some la
    ∧ aggregate_losses [LossRecord 2 0 1 1] 2 [0; 1] 1 = Some lb
    ∧ aggregate_losses
        ([LossRecord 1 0 5 4; LossRecord 1 1 7 9] ++ [LossRecord 2 0 1 1])
        2 [0; 1] 1 = Some lab
    ∧ ∀ key, iadd la lb !! key = lab !! key
             ∧ loss_at (iadd la lb) key = loss_at lab key.
Proof.
  apply (aggregate_losses_additive
           [LossRecord 1 0 5 4; LossRecord 1 1 7 9] [LossRecord 2 0 1 1]
           2 [0; 1] 1).
  - right. repeat constructor.
  - intros e He%list_elem_of_In Hb%list_elem_of_In. simpl in He, Hb. lia.
Defined.

End AggregatorClaims.

(** * Properties of the task [event_based_risk] *)

Section TaskFacts.
Import Accum Aggregator AggregatorSpec Task.
Context {rng : Type}.
Variable get_output :
  nat → list asset → list gmf_row → option rng
  → option ((string → list loss_record) * option rng).
Variable par : param.
Variable inp : inputs.

Local Abbreviation add_losses := (add_losses (rng := rng) par inp).
Local Abbreviation process_group := (process_group get_output par inp).
Local Abbreviation taxonomy_loop := (taxonomy_loop get_output par inp).

Lemma foldlM_app {A B} (f : A → B → option A) a (l1 l2 : list B) :
  foldlM f a (l1 ++ l2) = foldlM f a l1 ≫= λ a', foldlM f a' l2.
Proof.
  revert a. induction l1 as [|b l1 IH]; intros a; [done|].
  simpl. destruct (f a b); simpl; [apply IH | done].
Qed.

(** What [add_losses] does to the accumulators of the event loss table
    and to the random generator. *)
Lemma add_losses_EK1 ln alt (s s' : state) :
  add_losses ln alt s = Some s' →
  rndgen s' = rndgen s
  ∧ ((alt = [] ∧ loss_by_EK1 s' = loss_by_EK1 s)
     ∨ (alt ≠ [] ∧ ∃ lbe,
          aggregate_losses alt (K par) (kids par inp) (asset_correlation par)
          = Some lbe
          ∧ loss_by_EK1 s' = alter (λ d, iadd d lbe) ln (loss_by_EK1 s))).
Proof.
  unfold Task.add_losses. destruct alt as [|r alt]; simpl.
  { intros [= <-]. auto. }
  destruct (aggregate_losses _ _ _ _) as [lbe|]; simpl; [|done].
  intros Hs'. assert (rndgen s' = rndgen s
    ∧ loss_by_EK1 s' = alter (λ d, iadd d lbe) ln (loss_by_EK1 s)) as [? ?].
  { destruct (collect_rlzs par); [|destruct (avg_losses par)].
    - destruct (coo _ _ _ _); by simplify_eq/=.
    - apply bind_Some in Hs' as (rows & _ & Hs').
      apply bind_Some in Hs' as (m & _ & Hs'). by simplify_eq/=.
    - by simplify_eq/=. }
  split; [done|]. right. split; [done|]. eauto.
Qed.

Lemma names_fold_rndgen out names (s s' : state) :
  foldlM (λ s ln, add_losses ln (out ln) s) s names = Some s' →
  rndgen s' = rndgen s.
Proof.
  revert s. induction names as [|n names IH]; intros s; simpl.
  - by intros [= <-].
  - destruct (add_losses n (out n) s) as [s1|] eqn:H1; simpl; [|done].
    intros Hs'. rewrite (IH _ Hs'). by apply add_losses_EK1 in H1 as [? _].
Qed.

Lemma names_fold_other out names ln (s s' : state) :
  foldlM (λ s ln, add_losses ln (out ln) s) s names = Some s' →
  ln ∉ names → loss_by_EK1 s' !! ln = loss_by_EK1 s !! ln.
Proof.
  revert s. induction names as [|n names IH]; intros s; simpl.
  - by intros [= <-].
  - destruct (add_losses n (out n) s) as [s1|] eqn:H1; simpl; [|done].
    intros Hs' [Hne Hnotin]%not_elem_of_cons. rewrite (IH _ Hs' Hnotin).
    apply add_losses_EK1 in H1 as [_ [[_ ->]|(_ & lbe & _ & ->)]]; [done|].
    by rewrite lookup_alter_ne.
Qed.

Lemma names_fold_at out names ln (s s' : state) :
  foldlM (λ s ln, add_losses ln (out ln) s) s names = Some s' →
  NoDup names → ln ∈ names → out ln ≠ [] →
  ∃ lbe,
    aggregate_losses (out ln) (K par) (kids par inp) (asset_correlation par)
    = Some lbe
    ∧ loss_by_EK1 s' !! ln = (λ d, iadd d lbe) <$> loss_by_EK1 s !! ln.
Proof.
  revert s. induction names as [|n names IH]; intros s; simpl.
  - by intros _ _ ?%elem_of_nil.
  - destruct (add_losses n (out n) s) as [s1|] eqn:H1; simpl; [|done].
    intros Hs' Hnd Hin Hout. inversion Hnd as [|? ? Hn Hnd']; subst.
    apply add_losses_EK1 in H1 as [_ H1].
    destruct (decide (ln = n)) as [->|Hne].
    + destruct H1 as [[? _]|(_ & lbe & Hagg & HEK)]; [done|].
      exists lbe. split; [done|].
      rewrite (names_fold_other _ _ _ _ _ Hs' Hn), HEK.
      by rewrite lookup_alter_eq.
    + apply elem_of_cons in Hin as [?|Hin]; [done|].
      destruct (IH _ Hs' Hnd' Hin Hout) as (lbe & Hagg & HEK).
      exists lbe. split; [done|]. rewrite HEK. f_equal.
      destruct H1 as [[_ ->]|(_ & lbe' & _ & ->)]; [done|].
      by rewrite lookup_alter_ne.
Qed.

(** A group that is not skipped: the risk model is called and the losses
    of every non-empty loss type are merged into the accumulators. *)
Lemma process_group_EK1 df g out rng' ln (s s' : state) :
  process_group df s g = Some s' →
  relevant_rows df g.2 ≠ [] →
  get_output g.1 g.2 (relevant_rows df g.2) (rndgen s) = Some (out, rng') →
  NoDup (loss_names inp) → ln ∈ loss_names inp → out ln ≠ [] →
  rndgen s' = rng'
  ∧ ∃ lbe,
      aggregate_losses (out ln) (K par) (kids par inp) (asset_correlation par)
      = Some lbe
      ∧ loss_by_EK1 s' !! ln = (λ d, iadd d lbe) <$> loss_by_EK1 s !! ln.
Proof.
  unfold Task.process_group. intros Hs' Hrows Hout Hnd Hin Hne.
  destruct (relevant_rows df g.2) as [|row rows] eqn:Hr; [done|].
  simpl in Hs'. rewrite Hout in Hs'. simpl in Hs'. split.
  - by rewrite (names_fold_rndgen _ _ _ _ Hs').
  - by apply (names_fold_at _ _ _ _ _ Hs').
Qed.
End TaskFacts.

(** ** The claims on the task *)

Section TaskClaims.
Import Accum Aggregator AggregatorSpec Task.
Context {rng : Type}.
Variable MultiEventRNG : nat → list nat → nat → rng.
Variable get_output :
  nat → list asset → list gmf_row → option rng
  → option ((string → list loss_record) * option rng).
Variable par : param.
Variable inp : inputs.

Lemma initial_EK1 df ln :
  ln ∈ loss_names inp →
  loss_by_EK1 (initial MultiEventRNG par inp df) !! ln = Some ∅.
Proof.
  simpl. generalize (loss_names inp). intros names Hin.
  induction names as [|n names IH]; [by apply elem_of_nil in Hin|].
  rewrite fmap_cons, list_to_map_cons, lookup_insert.
  destruct (decide (n = ln)); [done|].
  apply elem_of_cons in Hin as [?|Hin]; [congruence | auto].
Qed.

(** C9.  A taxonomy group without hazard rows at the sites of its assets is
    skipped: the body of the loop returns the state it was given (random
    generator and accumulators unchanged) without calling the risk model and
    without error, and the loop gives the same result as without the group;
    this holds for any risk model, also one that would fail on the group. *)
Theorem empty_group_skipped
    (df : list gmf_row) (s : state (rng := rng)) (g : nat * list asset)
    (before after : list (nat * list asset)) :
  relevant_rows df g.2 = [] →
  process_group get_output par inp df s g = Some s
  ∧ taxonomy_loop get_output par inp df s (before ++ g :: after)
    = taxonomy_loop get_output par inp df s (before ++ after).
Proof.
  intros Hrows.
  assert (∀ s0, process_group get_output par inp df s0 g = Some s0) as Hskip.
  { intros s0. unfold process_group. by rewrite Hrows. }
  split; [done|]. unfold taxonomy_loop. rewrite !foldlM_app.
  destruct (foldlM _ s before) as [s1|]; simpl; [|done].
  by rewrite Hskip.
Qed.

End TaskClaims.

Lemma empty_group_skipped_witness :
  Task.process_group (rng := unit) (λ _ _ _ _, None)
    (Task.Param 1 false false 0 42)
    (Task.Inputs [Task.Asset 0 7 5] [0] [0] [1%R] ["structural"] false)
    [Task.GmfRow 3 1 [1%R]] (Task.State None ∅ ∅) (7, [Task.Asset 0 7 5])
  = Some (Task.State None ∅ ∅).
Proof.
  apply (empty_group_skipped (rng := unit) (λ _ _ _ _, None)
           (Task.Param 1 false false 0 42)
           (Task.Inputs [Task.Asset 0 7 5] [0] [0] [1%R] ["structural"] false)
           [Task.GmfRow 3 1 [1%R]] (Task.State None ∅ ∅)
           (7, [Task.Asset 0 7 5]) [] []).
  reflexivity.
Defined.

(** * The size guard of [pre_execute] *)

Section GuardClaims.
Import Guard.

Lemma check_alt_nbytes_None (E L ct : Z) :
  (0 <= ct)%Z →
  check_alt_nbytes E L ct = None ↔ (4 * E * L <= TWO32 * or_1 ct)%Z.
Proof.
  intros Hct. unfold check_alt_nbytes.
  assert (0 < inject_Z (or_1 ct))%Q as Hpos.
  { rewrite <- (Zlt_Qlt 0). unfold or_1. destruct (Z.eqb_spec ct 0); lia. }
  rewrite Zle_Qle, (inject_Z_mult TWO32).
  set (a := inject_Z (4 * E * L)) in *. set (b := inject_Z (or_1 ct)) in *.
  set (c := inject_Z TWO32) in *.
  destruct (Qle_bool (a / b) c) eqn:Hle; simpl.
  - split; [intros _ | done]. apply Qle_bool_iff in Hle.
    destruct (Qlt_le_dec (c * b) a) as [Hlt|Hle']; [|done].
    exfalso. apply (Qlt_shift_div_l _ _ _ Hpos) in Hlt.
    exact (Qlt_not_le _ _ Hlt Hle).
  - split; [done|]. intros Hz. exfalso.
    assert (Qle_bool (a / b) c = true) as Htrue; [|congruence].
    apply Qle_bool_iff. by apply Qle_shift_div_r.
Qed.

(** C6 as stated fails on the code: the guard has no bytes-per-row input,
    it counts 4 bytes for each event and loss type, so that 10^8 events and
    3 loss types pass with a single task, although 16 bytes a row would
    exceed the ceiling of 2^32 bytes. *)
Lemma check_alt_nbytes_counterexample :
  check_alt_nbytes (10 ^ 8) 3 1 = None ∧ (TWO32 < 16 * 10 ^ 8 * 3)%Z.
Proof. split; [by vm_compute | by vm_compute]. Qed.

(** C6, as the code has it.  The guard computes
    [4 * E * L / (concurrent_tasks or 1)] and raises the [RuntimeError]
    "The event loss table is too big to be transferred with %d tasks" exactly
    when this exceeds 2^32.  With 10^8 events and 3 loss types it passes for
    1 task and for 1000 tasks; with 4 * 10^8 events and 3 loss types
    (4.8 * 10^9 bytes) it rejects for 1 task and passes for 1000 tasks. *)
Theorem check_alt_nbytes_spec (E L ct : Z) :
  (0 <= ct)%Z →
  (check_alt_nbytes E L ct = None ↔ (4 * E * L <= TWO32 * or_1 ct)%Z)
  ∧ (check_alt_nbytes E L ct
     = Some (RuntimeError
               "The event loss table is too big to be transferred with %d tasks"
               [ct])
     ↔ (TWO32 * or_1 ct < 4 * E * L)%Z)
  ∧ check_alt_nbytes (10 ^ 8) 3 1 = None
  ∧ check_alt_nbytes (10 ^ 8) 3 1000 = None
  ∧ is_Some (check_alt_nbytes (4 * 10 ^ 8) 3 1)
  ∧ check_alt_nbytes (4 * 10 ^ 8) 3 1000 = None.
Proof.
  intros Hct. pose proof (check_alt_nbytes_None E L ct Hct) as HNone.
  split_and!; [done | | by vm_compute | by vm_compute | by vm_compute; eauto
               | by vm_compute].
  split.
  - intros HSome. apply Z.nle_gt. intros Hle. apply HNone in Hle. congruence.
  - intros Hlt. unfold check_alt_nbytes in *.
    destruct (negb _); [done|]. exfalso.
    assert (4 * E * L <= TWO32 * or_1 ct)%Z by by apply HNone. lia.
Qed.

Lemma check_alt_nbytes_spec_witness :
  check_alt_nbytes (4 * 10 ^ 8) 3 2 = None
  ↔ (4 * (4 * 10 ^ 8) * 3 <= TWO32 * or_1 2)%Z.
Proof. apply (check_alt_nbytes_spec (4 * 10 ^ 8) 3 2). lia. Defined.

End GuardClaims.

(** * The check for missing ground motion fields in [execute] *)

Section ExecuteClaims.
Import Task Execute.
Context {cell rupgetter : Type} {casts : dtype_casts}.
Variable gen_computers : rupgetter → list (computer (cell := cell)).
Variable split : rupgetter → list rupgetter.
Variable task_no_of : rupgetter → nat.
Variable lti : gmap string nat.
Variable risk_of_frame :
  gmap string (list cell) → option (list (gmap string value)).
Variable risk_of_slice : nat * nat → option (list (gmap string value)).

Local Abbreviation ebrisk :=
  (ebrisk gen_computers task_no_of risk_of_frame).
Local Abbreviation start_ebrisk :=
  (start_ebrisk gen_computers split task_no_of risk_of_frame).

Lemma mapM_all_nil {A B} (f : A → option (list B)) (l : list A) :
  (∀ x, x ∈ l → f x = Some []) →
  ∃ yss, mapM f l = Some yss ∧ concat yss = [].
Proof.
  induction l as [|x l IH]; intros Hf.
  - by exists [].
  - destruct IH as (yss & Hyss & Hnil); [intros; apply Hf; by right|].
    exists ([] :: yss). split; [|done].
    apply mapM_Some. constructor; [apply Hf; by left | by apply mapM_Some].
Qed.

Lemma ebrisk_no_data rg :
  (∀ c, c ∈ gen_computers rg → data c = ∅) → ebrisk rg = Some [].
Proof.
  intros Hdata. unfold Execute.ebrisk.
  assert (∀ (cs : list (computer (cell := cell))) acc,
            (∀ c, c ∈ cs → data c = ∅) →
            foldlM (collect (task_no_of rg)) acc cs = Some acc) as Hfold.
  { induction cs as [|c cs IH]; intros acc Hcs; [done|].
    assert (collect (task_no_of rg) acc c = Some acc) as Hc.
    { unfold collect. rewrite (Hcs c) by left. by rewrite map_size_empty. }
    simpl. rewrite Hc. simpl. apply IH. intros; apply Hcs; by right. }
  rewrite (Hfold _ _ Hdata). simpl. by rewrite decide_True.
Qed.

Lemma start_ebrisk_no_data rg :
  (∀ rg' c, rg' ∈ split rg → c ∈ gen_computers rg' → data c = ∅) →
  start_ebrisk rg = Some [].
Proof.
  intros Hdata. unfold Execute.start_ebrisk.
  destruct (mapM_all_nil ebrisk (take (length (split rg) - 1) (split rg)))
    as (subs & -> & Hnil).
  { intros rg' Hin%subseteq_take.
    apply ebrisk_no_data. intros c. by apply Hdata. }
  simpl. rewrite Hnil.
  destruct (last (split rg)) as [rg'|] eqn:Hlast; [|done].
  rewrite ebrisk_no_data; [done|].
  intros c. apply Hdata. by apply last_Some_elem_of.
Qed.

(** C8.  Starting from ruptures ([gmf_data] is not in the datastore), with
    the dataset [gmf_info] empty as [pre_execute] creates it, when no
    computer of any rupture getter produces hazard data, [execute] raises
    the [RuntimeError] "No GMFs were generated, perhaps they were all below
    the minimum_intensity threshold", whatever the order in which the
    results are reduced. *)
Theorem no_gmfs_is_fatal
    (c : calc) (concurrent_tasks : nat) (rgs : list rupgetter)
    (arrival : list (gmap string value) → list (gmap string value)) :
  gmf_info c = [] →
  (∀ l, arrival l ≡ₚ l) →
  (∀ rg rg' comp,
     rg ∈ rgs → rg' ∈ split rg → comp ∈ gen_computers rg' →
     data comp = ∅) →
  execute gen_computers split task_no_of lti risk_of_frame risk_of_slice
          c None concurrent_tasks rgs arrival
  = Raised no_gmfs.
Proof.
  intros Hinfo Hperm Hdata. unfold execute.
  destruct (mapM_all_nil start_ebrisk rgs) as (yss & -> & ->).
  { intros rg Hrg. apply start_ebrisk_no_data. intros rg' comp.
    by apply Hdata. }
  assert (arrival [] = []) as -> by apply Permutation_nil_r, Hperm.
  simpl. by rewrite Hinfo.
Qed.

End ExecuteClaims.

Lemma no_gmfs_is_fatal_witness :
  Execute.execute (cell := nat) (rupgetter := nat)
    (casts := Execute.DtypeCasts (λ n, n) (λ n, n) (λ x, x))
    (λ rg, [Execute.Computer rg 3 ∅ 0%R]) (λ rg, [rg; S rg]) (λ rg, rg) ∅
    (λ _, None) (λ _, None) (Execute.Calc [] [] ∅) None 4 [0; 10] (λ l, l)
  = Execute.Raised Execute.no_gmfs.
Proof.
  apply (no_gmfs_is_fatal (cell := nat) (rupgetter := nat)
           (casts := Execute.DtypeCasts (λ n, n) (λ n, n) (λ x, x))
           (λ rg, [Execute.Computer rg 3 ∅ 0%R]) (λ rg, [rg; S rg])
           (λ rg, rg) ∅ (λ _, None) (λ _, None) (Execute.Calc [] [] ∅) 4
           [0; 10] (λ l, l)).
  - reflexivity.
  - intros l. reflexivity.
  - intros rg rg' comp _ _ Hc. apply list_elem_of_singleton in Hc.
    by rewrite Hc.
Defined.

(** * Further properties of the partitioner *)

Section PartitionerMore.
Import Partitioner PartitionerSpec.

Lemma weight_of_concat (cs : list (list (nat * list nat))) :
  weight_of (concat cs) = sum_list (weight_of <$> cs).
Proof.
  induction cs as [|c cs IH]; [done|].
  rewrite fmap_cons. simpl. by rewrite weight_of_app, IH.
Qed.

Lemma chunks_weight mw eids :
  sum_list (weight_of <$> chunks mw eids) = length eids.
Proof.
  rewrite <- weight_of_concat, chunks_concat. unfold weight_of.
  by rewrite groupby_rows.
Qed.

(** [weight > len(eids) / ct] in integers. *)
Lemma exceeds_maxweight_of ct eids w :
  (maxweight_of ct eids < qnat w)%Q ↔ length eids < w * or_1 ct.
Proof.
  unfold maxweight_of, qnat.
  assert (0 < inject_Z (Z.of_nat (or_1 ct)))%Q as Hpos.
  { rewrite <- (Zlt_Qlt 0). unfold or_1. destruct (Nat.eqb_spec ct 0); lia. }
  split.
  - intros Hlt.
    destruct (le_lt_dec (w * or_1 ct) (length eids)) as [Hle|]; [|done].
    exfalso. apply (Qlt_not_le _ _ Hlt). apply Qle_shift_div_l; [done|].
    rewrite <- inject_Z_mult, <- Zle_Qle. lia.
  - intros Hlt. apply Qlt_shift_div_r; [done|].
    rewrite <- inject_Z_mult, <- Zlt_Qlt. lia.
Qed.

Lemma heavy_count (ws : list nat) (n c : nat) :
  Forall (λ w, n < w * c) ws → length ws * (n + 1) ≤ c * sum_list ws.
Proof.
  induction 1 as [|w ws Hw _ IH]; simpl; [lia|]. nia.
Qed.

(** A bound that is never exceeded gives a single chunk. *)
Lemma chunk_loop_light mw groups cur weight :
  (qnat (weight + weight_of groups) <= mw)%Q →
  chunk_loop mw groups cur weight
  = if Nat.eqb (weight + weight_of groups) 0 then [] else [cur ++ groups].
Proof.
  revert cur weight. induction groups as [|g groups IH]; intros cur weight Hle.
  - simpl. unfold weight_of, rows_of. simpl.
    by rewrite Nat.add_0_r, app_nil_r.
  - change (g :: groups) with ([g] ++ groups) in *.
    rewrite weight_of_app, weight_of_single in *. simpl.
    assert (exceeds (weight + length g.2) mw = false) as ->.
    { apply exceeds_false. eapply Qle_trans; [|exact Hle].
      apply qnat_le. lia. }
    rewrite IH by by rewrite <- Nat.add_assoc.
    by rewrite <- Nat.add_assoc, <- app_assoc.
Qed.

(** X1.  [gen_args] yields no slice for an empty [gmf_data] and otherwise
    at least one and at most [concurrent_tasks or 1] slices: no more tasks
    are generated than were asked for. *)
Theorem gen_args_at_most_ct (concurrent_tasks : nat) (eids : list nat) :
  (eids = [] → gen_args concurrent_tasks eids = [])
  ∧ (eids ≠ [] →
     1 ≤ length (gen_args concurrent_tasks eids) ≤ or_1 concurrent_tasks).
Proof.
  split; [by intros -> |]. intros Hne. unfold gen_args.
  set (mw := maxweight_of concurrent_tasks eids).
  rewrite gen_args_spans, spans_length.
  pose proof (chunks_weight mw eids) as Hsum.
  pose proof (chunks_positive mw eids) as Hpos.
  remember (chunks mw eids) as cs eqn:Hcs.
  destruct cs as [|c0 cs0 _] using rev_ind.
  { simpl in Hsum. destruct eids; [done | simpl in Hsum; lia]. }
  rewrite length_app. simpl. split; [lia|].
  assert (Forall (λ w, length eids < w * or_1 concurrent_tasks)
                 (weight_of <$> cs0)) as Hheavy.
  { apply Forall_fmap, Forall_lookup_2. intros i c Hc. simpl.
    apply exceeds_maxweight_of. fold mw.
    apply (chunk_loop_heavy mw (groupby eids) [] 0 i c eq_refl).
    - fold (chunks mw eids). rewrite <- Hcs. by apply lookup_app_l_Some.
    - fold (chunks mw eids). rewrite <- Hcs, length_app. simpl.
      apply lookup_lt_Some in Hc. lia. }
  apply heavy_count in Hheavy. rewrite length_fmap in Hheavy.
  rewrite fmap_app, sum_list_with_app in Hsum. simpl in Hsum.
  assert (1 ≤ or_1 concurrent_tasks)
    by (unfold or_1; destruct (Nat.eqb_spec concurrent_tasks 0); lia).
  nia.
Qed.

(** X2.  With [concurrent_tasks] equal to 0 or 1 all the rows go to one
    task: [gen_args] yields the single slice [slice(0, len(eids))]. *)
Theorem gen_args_single_task (concurrent_tasks : nat) (eids : list nat) :
  concurrent_tasks ≤ 1 → eids ≠ [] →
  gen_args concurrent_tasks eids = [(0, length eids)].
Proof.
  intros Hct Hne. unfold gen_args. rewrite gen_args_spans. unfold chunks.
  assert (weight_of (groupby eids) = length eids) as Hw
    by (unfold weight_of; by rewrite groupby_rows).
  rewrite chunk_loop_light.
  - rewrite Hw. destruct (Nat.eqb_spec (0 + length eids) 0) as [H0|_].
    { destruct eids; [done | simpl in H0; lia]. }
    simpl. by rewrite Hw.
  - rewrite Hw. simpl. unfold maxweight_of, qnat.
    assert (or_1 concurrent_tasks = 1) as ->.
    { unfold or_1. destruct (Nat.eqb_spec concurrent_tasks 0); lia. }
    apply Qle_shift_div_l; [reflexivity|]. rewrite Qmult_1_r. apply Qle_refl.
Qed.

Lemma gen_args_at_most_ct_witness :
  1 ≤ length (gen_args 2 [1; 1; 2; 3]) ≤ or_1 2.
Proof. apply (gen_args_at_most_ct 2 [1; 1; 2; 3]). discriminate. Defined.

Lemma gen_args_single_task_witness :
  gen_args 1 [4; 4; 7; 9; 9] = [(0, 5)].
Proof.
  apply (gen_args_single_task 1 [4; 4; 7; 9; 9]); [lia | discriminate].
Defined.

Lemma groupby_adjacent eids G1 g1 g2 G2 :
  groupby eids = G1 ++ g1 :: g2 :: G2 → g1.1 ≠ g2.1.
Proof.
  revert G1 g1 g2 G2. induction eids as [|e l IH]; intros G1 g1 g2 G2.
  { by destruct G1. }
  simpl. destruct (groupby l) as [|[k g] gs].
  { destruct G1 as [|? [|? ?]]; discriminate. }
  destruct (Nat.eqb_spec e k) as [->|Hne]; intros Heq.
  - destruct G1 as [|x G1]; simplify_eq/=.
    + by apply (IH [] (k, g) g2 G2).
    + by apply (IH ((k, g) :: G1) g1 g2 G2).
  - destruct G1 as [|x G1]; simplify_eq/=; [done|].
    by apply (IH G1 g1 g2 G2).
Qed.

Lemma spans_lookup_start start cs i slc :
  spans start cs !! i = Some slc →
  slc.1 = start + weight_of (concat (take i cs)).
Proof.
  revert start i. induction cs as [|c cs IH]; intros start i; [done|].
  destruct i as [|i]; simpl.
  - intros [= <-]. unfold weight_of. simpl. lia.
  - intros Hi%IH. rewrite weight_of_app. lia.
Qed.

Lemma run_last g : run g → ∃ init, g.2 = init ++ [g.1].
Proof.
  intros [Hne Hall]. destruct (g.2) as [|x l _] using rev_ind; [done|].
  apply Forall_app in Hall as [_ Hx]. inversion Hx; subst. eauto.
Qed.

Lemma run_first g : run g → ∃ rest, g.2 = g.1 :: rest.
Proof.
  intros [Hne Hall]. destruct (g.2) as [|x l]; [done|].
  inversion Hall; subst. eauto.
Qed.

(** X3.  Whatever the input (contiguous events or not), a slice of
    [gen_args] never starts inside a run of equal consecutive event ids:
    the row before the first row of a slice belongs to another event. *)
Theorem gen_args_cuts_between_events
    (maxweight : Q) (eids : list nat) (i : nat) (slc : nat * nat) :
  gen_args_with maxweight eids !! i = Some slc →
  0 < slc.1 →
  ∃ x y, eids !! (slc.1 - 1) = Some x ∧ eids !! slc.1 = Some y ∧ x ≠ y.
Proof.
  intros Hi Hpos.
  destruct (slice_chunk _ _ _ _ Hi) as (c & Hc & _ & _).
  rewrite gen_args_spans in Hi. apply spans_lookup_start in Hi.
  simpl in Hi. set (cs := chunks maxweight eids) in *.
  pose proof (chunks_concat maxweight eids) as Hcat. fold cs in Hcat.
  rewrite <- (take_drop_middle cs i c Hc), concat_app in Hcat.
  simpl in Hcat.
  destruct (concat (take i cs)) as [|g1 G1 _] using rev_ind.
  { unfold weight_of in Hi. simpl in Hi. lia. }
  assert (c ≠ []) as Hcne.
  { pose proof (chunk_loop_nonempty maxweight (groupby eids) [] 0 eq_refl)
      as Hne. rewrite Forall_forall in Hne. apply Hne.
    by eapply list_elem_of_lookup_2. }
  destruct c as [|g2 c']; [done|].
  rewrite <- !app_assoc in Hcat. simpl in Hcat.
  pose proof (groupby_adjacent _ _ _ _ _ (eq_sym Hcat)) as Hkeys.
  pose proof (groupby_runs eids) as Hruns. rewrite <- Hcat in Hruns.
  apply Forall_app in Hruns as [_ Hruns].
  inversion Hruns as [|? ? Hr1 Hruns']; subst.
  inversion Hruns' as [|? ? Hr2 _]; subst.
  destruct (run_last _ Hr1) as [init Hg1].
  destruct (run_first _ Hr2) as [rest Hg2].
  pose proof (groupby_rows eids) as Hrows. rewrite <- Hcat in Hrows.
  rewrite rows_of_app in Hrows.
  change (g1 :: g2 :: c' ++ concat (drop (S i) cs))
    with ([g1] ++ [g2] ++ (c' ++ concat (drop (S i) cs))) in Hrows.
  rewrite !rows_of_app in Hrows.
  unfold rows_of at 2 3 in Hrows. simpl in Hrows.
  rewrite !app_nil_r, Hg1, Hg2 in Hrows.
  rewrite weight_of_app, weight_of_single, Hg1, length_app in Hi.
  simpl in Hi. exists g1.1, g2.1. split_and!; [| |done].
  - rewrite <- Hrows.
    replace (slc.1 - 1) with (length (rows_of G1 ++ init))
      by (rewrite length_app; unfold weight_of in Hi; lia).
    rewrite <- !app_assoc, (app_assoc (rows_of G1) init).
    by apply list_lookup_middle.
  - rewrite <- Hrows.
    rewrite (app_assoc (rows_of G1) (init ++ [g1.1])).
    apply list_lookup_middle.
    rewrite !length_app. unfold weight_of in Hi. simpl. lia.
Qed.

Lemma gen_args_cuts_between_events_witness :
  ∃ x y, [1; 2; 1; 1; 3] !! (2 - 1) = Some x
         ∧ [1; 2; 1; 1; 3] !! 2 = Some y ∧ x ≠ y.
Proof.
  apply (gen_args_cuts_between_events (3 # 2) [1; 2; 1; 1; 3] 1 (2, 4)).
  - reflexivity.
  - simpl. lia.
Defined.

End PartitionerMore.

(** * Further properties of [aggregate_losses] *)

Section AggregatorMore.
Import Accum Aggregator AggregatorSpec.
Implicit Types (alt A B : list loss_record) (kids : list nat).

Lemma get_iadd (d1 d2 : gmap (nat * nat) lv) k :
  get (iadd d1 d2) k = lv_add (get d1 k) (get d2 k).
Proof.
  unfold get. rewrite lookup_iadd.
  destruct (d1 !! k), (d2 !! k); simpl;
    by rewrite ?lv_add_zeros_l, ?lv_add_zeros_r.
Qed.

Lemma val_Permutation correl rs rs' :
  rs ≡ₚ rs' → val correl rs = val correl rs'.
Proof.
  unfold val, vsum. induction 1 as [|r rs rs' _ IH|r1 r2 rs|? ? ? _ IH1 _ IH2].
  - done.
  - rewrite !fmap_cons. simpl. by rewrite IH.
  - rewrite !fmap_cons. simpl. unfold lv_add. simpl. f_equal; lra.
  - by rewrite IH1.
Qed.

Lemma part_Permutation correl rs rs' :
  rs ≡ₚ rs' → part correl rs = part correl rs'.
Proof.
  intros Hp. destruct rs as [|r rs].
  - apply Permutation_nil_l in Hp. by subst.
  - destruct rs' as [|r' rs'].
    + by apply Permutation_nil_r in Hp.
    + unfold part. f_equal. by apply val_Permutation.
Qed.

Lemma contributions_app kids K A B e j :
  contributions kids K (A ++ B) e j
  ≡ₚ contributions kids K A e j ++ contributions kids K B e j.
Proof.
  unfold contributions, keyed, total. rewrite !filter_app.
  destruct (decide (j = K)); [|by rewrite !app_nil_r].
  rewrite <- !app_assoc. apply Permutation_app_head.
  rewrite !app_assoc. apply Permutation_app_tail, Permutation_app_comm.
Qed.

Lemma contributions_Permutation kids K alt alt' e j :
  alt ≡ₚ alt' → contributions kids K alt e j ≡ₚ contributions kids K alt' e j.
Proof.
  intros Hp. unfold contributions, keyed, total.
  apply Permutation_app; [by rewrite Hp|].
  destruct (decide (j = K)); [by rewrite Hp | done].
Qed.

Lemma aggregate_losses_three A B K kids correl :
  kids = [] ∨ Forall (λ r, aid r < length kids) (A ++ B) →
  ∃ la lb lab,
    aggregate_losses A K kids correl = Some la
    ∧ aggregate_losses B K kids correl = Some lb
    ∧ aggregate_losses (A ++ B) K kids correl = Some lab.
Proof.
  intros Hok.
  destruct (proj2 (aggregate_losses_Some A K kids correl)) as [la Ha].
  { destruct Hok as [?|[? _]%Forall_app]; auto. }
  destruct (proj2 (aggregate_losses_Some B K kids correl)) as [lb Hb].
  { destruct Hok as [?|[_ ?]%Forall_app]; auto. }
  destruct (proj2 (aggregate_losses_Some (A ++ B) K kids correl) Hok)
    as [lab Hab].
  by exists la, lb, lab.
Qed.

(** The entries of one pass over [A ++ B] and of the merge of two passes. *)
Lemma merge_entries A B K kids correl la lb lab e j :
  aggregate_losses A K kids correl = Some la →
  aggregate_losses B K kids correl = Some lb →
  aggregate_losses (A ++ B) K kids correl = Some lab →
  lab !! (e, j)
  = post correl <$> oadd (part correl (contributions kids K A e j))
                         (part correl (contributions kids K B e j))
  ∧ iadd la lb !! (e, j)
    = oadd (post correl <$> part correl (contributions kids K A e j))
           (post correl <$> part correl (contributions kids K B e j)).
Proof.
  intros Ha Hb Hab. split.
  - rewrite (aggregate_losses_entry _ _ _ _ _ _ _ Hab), part_app.
    f_equal. apply part_Permutation, contributions_app.
  - rewrite lookup_iadd.
    rewrite (aggregate_losses_entry _ _ _ _ _ _ _ Ha).
    by rewrite (aggregate_losses_entry _ _ _ _ _ _ _ Hb).
Qed.

Lemma post_fst correl v : (post correl v).1 = v.1.
Proof. unfold post. by destruct (truthy correl). Qed.

Lemma val_snd_nonneg correl rs :
  Forall (λ r, (0 <= variance r)%R) rs → (0 <= (val correl rs).2)%R.
Proof.
  unfold val, vsum. induction 1 as [|r rs Hr _ IH]; [simpl; lra|].
  rewrite fmap_cons. cbn [foldr]. unfold lv_add at 1. cbn [snd].
  assert (0 <= x_of correl r)%R; [|lra].
  unfold x_of. destruct (truthy correl); [apply sqrt_pos | done].
Qed.

Lemma contributions_subseteq kids K alt e j r :
  r ∈ contributions kids K alt e j → r ∈ alt.
Proof.
  unfold contributions, keyed, total. intros [Hr|Hr]%elem_of_app.
  - by apply list_elem_of_filter in Hr as [_ ?].
  - destruct (decide (j = K)); [|by apply elem_of_nil in Hr].
    by apply list_elem_of_filter in Hr as [_ ?].
Qed.

Lemma contributions_nonneg kids K alt e j :
  Forall (λ r, (0 <= variance r)%R) alt →
  Forall (λ r, (0 <= variance r)%R) (contributions kids K alt e j).
Proof.
  rewrite !Forall_forall. intros Hall r Hr.
  by eapply Hall, contributions_subseteq.
Qed.

(** X4.  The accumulator returned by [aggregate_losses] has an entry under
    [(e, j)] exactly when a record of the batch has the event [e] and
    either its asset has the key [j] or [j] is the total key [K]: entries
    are created by contributions only. *)
Theorem aggregate_losses_entries alt K kids correl :
  kids = [] ∨ Forall (λ r, aid r < length kids) alt →
  ∃ lbe,
    aggregate_losses alt K kids correl = Some lbe
    ∧ ∀ e j, is_Some (lbe !! (e, j))
             ↔ ∃ r, r ∈ alt ∧ eid r = e
                    ∧ (kids !! aid r = Some j ∨ j = K).
Proof.
  intros Hok.
  destruct (proj2 (aggregate_losses_Some alt K kids correl) Hok)
    as [lbe Hagg].
  exists lbe. split; [done|]. intros e j.
  rewrite (aggregate_losses_entry _ _ _ _ _ _ _ Hagg).
  rewrite fmap_is_Some.
  assert (is_Some (part correl (contributions kids K alt e j))
          ↔ ∃ r, r ∈ contributions kids K alt e j) as ->.
  { destruct (contributions kids K alt e j) as [|r rs]; simpl.
    - split; [by intros [? ?] | by intros [? ?%elem_of_nil]].
    - split; [intros _; exists r; left | eauto]. }
  unfold contributions, keyed, total. split.
  - intros (r & [Hr|Hr]%elem_of_app).
    + apply list_elem_of_filter in Hr as [[? ?] ?]. eauto 6.
    + destruct (decide (j = K)); [|by apply elem_of_nil in Hr].
      apply list_elem_of_filter in Hr as [? ?]. eauto 6.
  - intros (r & Hr & He & [Hk| ->]); exists r; apply elem_of_app.
    + left. by apply list_elem_of_filter.
    + right. rewrite decide_True by done. by apply list_elem_of_filter.
Qed.

Lemma aggregate_losses_entries_witness :
  ∃ lbe,
    aggregate_losses [LossRecord 1 0 5 4; LossRecord 2 1 7 9] 2 [0; 1] 0
    = Some lbe
    ∧ ∀ e j, is_Some (lbe !! (e, j))
             ↔ ∃ r, r ∈ [LossRecord 1 0 5 4; LossRecord 2 1 7 9]
                    ∧ eid r = e ∧ ([0; 1] !! aid r = Some j ∨ j = 2).
Proof.
  apply (aggregate_losses_entries
           [LossRecord 1 0 5 4; LossRecord 2 1 7 9] 2 [0; 1] 0).
  right. repeat constructor.
Defined.

(** X5.  [aggregate_losses] raises (the [IndexError] of [kids[aid]])
    exactly when [kids] is not empty and a record has an asset ordinal that
    is not an index of [kids]; without [kids] it never fails. *)
Theorem aggregate_losses_fails alt K kids correl :
  aggregate_losses alt K kids correl = None
  ↔ kids ≠ [] ∧ Exists (λ r, length kids ≤ aid r) alt.
Proof.
  rewrite eq_None_not_Some, aggregate_losses_Some. split.
  - intros Hnot. split; [intros ->; apply Hnot; by left|].
    destruct (decide (Forall (λ r, aid r < length kids) alt)) as [HF|HF].
    { exfalso. apply Hnot. by right. }
    apply not_Forall_Exists in HF; [|apply _].
    eapply Exists_impl; [exact HF|]. simpl. lia.
  - intros [Hne Hex] [->|HF]; [done|].
    rewrite Exists_exists in Hex. destruct Hex as (r & Hr & Hge).
    rewrite Forall_forall in HF. specialize (HF r Hr). lia.
Qed.

(** X6.  The loss component is additive for any two batches, sharing
    events or not, in both correlation modes: merging the accumulators of
    [A] and of [B] gives the same entries and the same losses as one pass
    over [A ++ B]. *)
Theorem aggregate_losses_loss_additive A B K kids correl :
  kids = [] ∨ Forall (λ r, aid r < length kids) (A ++ B) →
  ∃ la lb lab,
    aggregate_losses A K kids correl = Some la
    ∧ aggregate_losses B K kids correl = Some lb
    ∧ aggregate_losses (A ++ B) K kids correl = Some lab
    ∧ ∀ key, (is_Some (iadd la lb !! key) ↔ is_Some (lab !! key))
             ∧ loss_at (iadd la lb) key = loss_at lab key.
Proof.
  intros Hok.
  destruct (aggregate_losses_three A B K kids correl Hok)
    as (la & lb & lab & Ha & Hb & Hab).
  exists la, lb, lab. split_and!; [done..|]. intros [e j].
  destruct (merge_entries A B K kids correl la lb lab e j Ha Hb Hab)
    as [Hone Htwo].
  unfold loss_at, get. rewrite Hone, Htwo. unfold oadd.
  destruct (part correl (contributions kids K A e j)) as [a|],
           (part correl (contributions kids K B e j)) as [b|]; simpl;
    (split; [by split; eauto|]); rewrite ?post_fst; try done.
Qed.

Lemma aggregate_losses_loss_additive_witness :
  ∃ la lb lab,
    aggregate_losses [LossRecord 1 0 5 4] 2 [0; 1] 1 = Some la
    ∧ aggregate_losses [LossRecord 1 1 7 9] 2 [0; 1] 1 = Some lb
    ∧ aggregate_losses ([LossRecord 1 0 5 4] ++ [LossRecord 1 1 7 9])
                       2 [0; 1] 1 = Some lab
    ∧ ∀ key, (is_Some (iadd la lb !! key) ↔ is_Some (lab !! key))
             ∧ loss_at (iadd la lb) key = loss_at lab key.
Proof.
  apply (aggregate_losses_loss_additive
           [LossRecord 1 0 5 4] [LossRecord 1 1 7 9] 2 [0; 1] 1).
  right. repeat constructor.
Defined.

(** X7.  Without correlation ([correl = 0]) the whole accumulator is
    additive, variances included, for any two batches: merging the
    accumulators of [A] and of [B] is the accumulator of [A ++ B]. *)
Theorem uncorrelated_merge A B K kids :
  kids = [] ∨ Forall (λ r, aid r < length kids) (A ++ B) →
  ∃ la lb lab,
    aggregate_losses A K kids 0 = Some la
    ∧ aggregate_losses B K kids 0 = Some lb
    ∧ aggregate_losses (A ++ B) K kids 0 = Some lab
    ∧ iadd la lb = lab.
Proof.
  intros Hok.
  destruct (aggregate_losses_three A B K kids 0 Hok)
    as (la & lb & lab & Ha & Hb & Hab).
  exists la, lb, lab. split_and!; [done..|]. apply map_eq. intros [e j].
  destruct (merge_entries A B K kids 0 la lb lab e j Ha Hb Hab)
    as [-> ->].
  unfold oadd.
  by destruct (part 0 (contributions kids K A e j)),
              (part 0 (contributions kids K B e j)).
Qed.

Lemma uncorrelated_merge_witness :
  ∃ la lb lab,
    aggregate_losses [LossRecord 1 0 5 4] 2 [0; 1] 0 = Some la
    ∧ aggregate_losses [LossRecord 1 0 7 9] 2 [0; 1] 0 = Some lb
    ∧ aggregate_losses ([LossRecord 1 0 5 4] ++ [LossRecord 1 0 7 9])
                       2 [0; 1] 0 = Some lab
    ∧ iadd la lb = lab.
Proof.
  apply (uncorrelated_merge [LossRecord 1 0 5 4] [LossRecord 1 0 7 9]
                            2 [0; 1]).
  right. repeat constructor.
Defined.

(** X8.  With correlation ([correl] not 0) and non-negative variances,
    splitting a batch over two calls never increases a variance: under
    every key the merge of the accumulators of [A] and of [B] holds at most
    the variance that one pass over [A ++ B] stores. *)
Theorem correlated_merge_le A B K kids correl :
  correl ≠ 0 →
  kids = [] ∨ Forall (λ r, aid r < length kids) (A ++ B) →
  Forall (λ r, (0 <= variance r)%R) (A ++ B) →
  ∃ la lb lab,
    aggregate_losses A K kids correl = Some la
    ∧ aggregate_losses B K kids correl = Some lb
    ∧ aggregate_losses (A ++ B) K kids correl = Some lab
    ∧ ∀ key, (variance_at (iadd la lb) key <= variance_at lab key)%R.
Proof.
  intros Hcorrel Hok [HA HB]%Forall_app.
  destruct (aggregate_losses_three A B K kids correl Hok)
    as (la & lb & lab & Ha & Hb & Hab).
  exists la, lb, lab. split_and!; [done..|]. intros [e j].
  destruct (merge_entries A B K kids correl la lb lab e j Ha Hb Hab)
    as [Hone Htwo].
  unfold variance_at, get. rewrite Hone, Htwo. unfold oadd, post.
  assert (truthy correl = true) as ->
    by (unfold truthy; by destruct correl).
  pose proof (val_snd_nonneg correl _ (contributions_nonneg kids K A e j HA))
    as HxA.
  pose proof (val_snd_nonneg correl _ (contributions_nonneg kids K B e j HB))
    as HxB.
  destruct (contributions kids K A e j) as [|ra csa],
           (contributions kids K B e j) as [|rb csb]; simpl in *; try lra.
  nra.
Qed.

Lemma correlated_merge_le_witness :
  ∃ la lb lab,
    aggregate_losses [LossRecord 1 0 5 4] 2 [0; 1] 1 = Some la
    ∧ aggregate_losses [LossRecord 1 0 7 9] 2 [0; 1] 1 = Some lb
    ∧ aggregate_losses ([LossRecord 1 0 5 4] ++ [LossRecord 1 0 7 9])
                       2 [0; 1] 1 = Some lab
    ∧ ∀ key, (variance_at (iadd la lb) key <= variance_at lab key)%R.
Proof.
  apply (correlated_merge_le [LossRecord 1 0 5 4] [LossRecord 1 0 7 9]
                             2 [0; 1] 1).
  - discriminate.
  - right. repeat constructor.
  - repeat constructor; simpl; lra.
Defined.

(** X9.  In real arithmetic the result of [aggregate_losses] does not
    depend on the order of the records of the batch, failure included. *)
Theorem aggregate_losses_order alt alt' K kids correl :
  alt ≡ₚ alt' →
  aggregate_losses alt K kids correl = aggregate_losses alt' K kids correl.
Proof.
  intros Hp.
  assert (is_Some (aggregate_losses alt K kids correl)
          ↔ is_Some (aggregate_losses alt' K kids correl)) as Hiff.
  { rewrite !aggregate_losses_Some. by rewrite Hp. }
  destruct (aggregate_losses alt K kids correl) as [lbe|] eqn:H1,
           (aggregate_losses alt' K kids correl) as [lbe'|] eqn:H2.
  - f_equal. apply map_eq. intros [e j].
    rewrite (aggregate_losses_entry _ _ _ _ _ _ _ H1).
    rewrite (aggregate_losses_entry _ _ _ _ _ _ _ H2).
    f_equal. by apply part_Permutation, contributions_Permutation.
  - destruct (proj1 Hiff) as [? ?]; [eauto | done].
  - destruct (proj2 Hiff) as [? ?]; [eauto | done].
  - done.
Qed.

Lemma aggregate_losses_order_witness :
  aggregate_losses [LossRecord 1 0 5 4; LossRecord 2 1 7 9] 2 [0; 1] 1
  = aggregate_losses [LossRecord 2 1 7 9; LossRecord 1 0 5 4] 2 [0; 1] 1.
Proof.
  apply (aggregate_losses_order
           [LossRecord 1 0 5 4; LossRecord 2 1 7 9]
           [LossRecord 2 1 7 9; LossRecord 1 0 5 4] 2 [0; 1] 1).
  apply Permutation_swap.
Defined.

(** X10.  When the variances of the records are not negative, no entry of
    the accumulator returned by [aggregate_losses] has a negative variance,
    in both correlation modes. *)
Theorem aggregate_losses_variance_nonneg alt K kids correl :
  kids = [] ∨ Forall (λ r, aid r < length kids) alt →
  Forall (λ r, (0 <= variance r)%R) alt →
  ∃ lbe,
    aggregate_losses alt K kids correl = Some lbe
    ∧ ∀ key, (0 <= variance_at lbe key)%R.
Proof.
  intros Hok Hvar.
  destruct (proj2 (aggregate_losses_Some alt K kids correl) Hok)
    as [lbe Hagg].
  exists lbe. split; [done|]. intros [e j]. unfold variance_at, get.
  rewrite (aggregate_losses_entry _ _ _ _ _ _ _ Hagg).
  pose proof (val_snd_nonneg correl _ (contributions_nonneg kids K alt e j Hvar))
    as Hx.
  destruct (contributions kids K alt e j) as [|r rs]; simpl in *; [lra|].
  unfold post. destruct (truthy correl); simpl; [nra | done].
Qed.

Lemma aggregate_losses_variance_nonneg_witness :
  ∃ lbe,
    aggregate_losses [LossRecord 1 0 5 4; LossRecord 2 1 7 9] 2 [0; 1] 1
    = Some lbe
    ∧ ∀ key, (0 <= variance_at lbe key)%R.
Proof.
  apply (aggregate_losses_variance_nonneg
           [LossRecord 1 0 5 4; LossRecord 2 1 7 9] 2 [0; 1] 1).
  - right. repeat constructor.
  - repeat constructor; simpl; lra.
Defined.

Lemma val_snd correl rs :
  (val correl rs).2 = vsum 0%R Rplus (x_of correl <$> rs).
Proof.
  unfold val, vsum. induction rs as [|r rs IH]; [done|].
  rewrite !fmap_cons. cbn [foldr]. unfold lv_add at 1. cbn [snd].
  by rewrite IH.
Qed.

(** [sum_keys_keyed] for any column of the records. *)
Lemma sum_keys_column (f : loss_record → R) kids K alt e :
  Forall (λ k, k < K) kids →
  Forall (λ r, aid r < length kids) alt →
  sum_keys K (λ k, vsum 0%R Rplus (f <$> keyed kids alt e k))
  = vsum 0%R Rplus (f <$> total alt e).
Proof.
  intros Hk Halt. unfold sum_keys.
  induction Halt as [|r alt Hr _ IH].
  - unfold keyed, total. simpl. apply sum_seq_zero.
  - apply lookup_lt_is_Some in Hr as [k0 Hk0].
    assert (k0 < K) as Hlt.
    { rewrite Forall_forall in Hk. apply Hk. by eapply list_elem_of_lookup_2. }
    unfold total. rewrite filter_cons. fold (total alt e).
    destruct (decide (eid r = e)) as [He|He].
    + rewrite (sum_seq_ext _
        (λ k, ((if decide (k = k0) then f r else 0)
               + vsum 0 Rplus (f <$> keyed kids alt e k))%R)).
      * rewrite sum_seq_plus, sum_seq_single, IH.
        rewrite decide_True by lia. by rewrite fmap_cons.
      * intros k _. unfold keyed. rewrite filter_cons.
        destruct (decide (k = k0)) as [->|Hne].
        -- rewrite decide_True by done. by rewrite fmap_cons.
        -- rewrite decide_False; [unfold vsum; lra|]. intros [_ ?]. congruence.
    + rewrite <- IH. apply sum_seq_ext. intros k _. unfold keyed.
      rewrite filter_cons, decide_False; [done|]. by intros [? _].
Qed.

Lemma sum_seq_squares (f : nat → R) a n :
  (∀ k, (0 <= f k)%R) →
  (0 <= vsum 0 Rplus (f <$> seq a n))%R
  ∧ (vsum 0 Rplus ((λ k, f k ^ 2) <$> seq a n)
     <= vsum 0 Rplus (f <$> seq a n) ^ 2)%R.
Proof.
  intros Hf. unfold vsum. revert a.
  induction n as [|n IH]; intros a; [simpl; lra|].
  change (seq a (S n)) with (a :: seq (S a) n).
  rewrite !fmap_cons. cbn [foldr].
  destruct (IH (S a)) as [IH1 IH2]. specialize (Hf a). split; nra.
Qed.

Lemma variance_at_entry alt K kids correl lbe e j :
  aggregate_losses alt K kids correl = Some lbe →
  variance_at lbe (e, j)
  = (post correl (val correl (contributions kids K alt e j))).2.
Proof.
  intros Hagg. unfold variance_at, get.
  rewrite (aggregate_losses_entry _ _ _ _ _ _ _ Hagg).
  destruct (contributions kids K alt e j) as [|r rs]; [|done].
  simpl. unfold post, val. destruct (truthy correl); simpl; lra.
Qed.

(** X11.  With every key in 0..K-1 and non-negative variances, the
    variances stored for an event under the explicit keys add up to the
    variance under the total key [K] when [correl = 0], and to at most that
    variance when [correl] is not 0. *)
Theorem variance_across_keys alt K kids correl e :
  Forall (λ k, k < K) kids →
  Forall (λ r, aid r < length kids) alt →
  Forall (λ r, (0 <= variance r)%R) alt →
  ∃ lbe,
    aggregate_losses alt K kids correl = Some lbe
    ∧ (correl = 0 →
       sum_keys K (λ k, variance_at lbe (e, k)) = variance_at lbe (e, K))
    ∧ (correl ≠ 0 →
       (sum_keys K (λ k, variance_at lbe (e, k)) <= variance_at lbe (e, K))%R).
Proof.
  intros Hk Halt Hvar.
  destruct (proj2 (aggregate_losses_Some alt K kids correl)) as [lbe Hagg];
    [by right|].
  exists lbe. split; [done|].
  assert (variance_at lbe (e, K) = (post correl (val correl (total alt e))).2)
    as HK.
  { rewrite (variance_at_entry _ _ _ _ _ _ _ Hagg). unfold contributions.
    by rewrite decide_True, (keyed_total_key _ _ _ _ Hk) by done. }
  assert (sum_keys K (λ k, variance_at lbe (e, k))
          = sum_keys K (λ k, (post correl (val correl (keyed kids alt e k))).2))
    as Hkeys.
  { apply sum_seq_ext. intros k Hlt.
    rewrite (variance_at_entry _ _ _ _ _ _ _ Hagg). unfold contributions.
    rewrite decide_False by lia. by rewrite app_nil_r. }
  rewrite HK, Hkeys.
  pose proof (sum_keys_column (x_of correl) kids K alt e Hk Halt) as Hcol.
  split.
  - intros ->. unfold post. simpl.
    rewrite val_snd, <- Hcol. apply sum_seq_ext. intros k _. apply val_snd.
  - intros Hne. unfold post.
    assert (truthy correl = true) as -> by (unfold truthy; by destruct correl).
    simpl. rewrite (val_snd correl (total alt e)), <- Hcol.
    unfold sum_keys.
    rewrite (sum_seq_ext _
      (λ k, vsum 0 Rplus (x_of correl <$> keyed kids alt e k) ^ 2)%R).
    + apply (sum_seq_squares
               (λ k, vsum 0%R Rplus (x_of correl <$> keyed kids alt e k))).
      intros k. rewrite <- val_snd. apply val_snd_nonneg.
      rewrite Forall_forall in Hvar. apply Forall_forall. intros r Hr.
      apply Hvar. unfold keyed in Hr.
      by apply list_elem_of_filter in Hr as [_ ?].
    + intros k _. simpl. by rewrite val_snd.
Qed.

Lemma variance_across_keys_witness :
  ∃ lbe,
    aggregate_losses [LossRecord 1 0 5 4; LossRecord 1 1 7 9] 2 [0; 1] 1
    = Some lbe
    ∧ (1 = 0 →
       sum_keys 2 (λ k, variance_at lbe (1, k)) = variance_at lbe (1, 2))
    ∧ (1 ≠ 0 →
       Rle (sum_keys 2 (λ k, variance_at lbe (1, k)))
           (variance_at lbe (1, 2))).
Proof.
  apply (variance_across_keys
           [LossRecord 1 0 5 4; LossRecord 1 1 7 9] 2 [0; 1] 1 1).
  - repeat constructor.
  - repeat constructor.
  - repeat constructor; simpl; lra.
Defined.

Lemma rsum_single (c : R) (e0 : nat) (es : list nat) :
  NoDup es → e0 ∈ es →
  vsum 0%R Rplus ((λ e, if decide (e0 = e) then c else 0%R) <$> es) = c.
Proof.
  unfold vsum. induction 1 as [|e es Hnotin Hnd IH]; intros Hin.
  { by apply elem_of_nil in Hin. }
  rewrite fmap_cons. cbn [foldr].
  destruct (decide (e0 = e)) as [->|Hne].
  - assert (foldr Rplus 0%R
              ((λ e', if decide (e = e') then c else 0%R) <$> es) = 0%R) as ->.
    { clear -Hnotin. induction es as [|e' es IH]; [done|].
      apply not_elem_of_cons in Hnotin as [? ?].
      rewrite fmap_cons. cbn [foldr]. rewrite decide_False by done.
      rewrite IH by done. lra. }
    lra.
  - apply elem_of_cons in Hin as [?|Hin]; [done|]. rewrite IH by done. lra.
Qed.

Lemma rsum_events (es : list nat) alt :
  NoDup es → Forall (λ r, eid r ∈ es) alt →
  vsum 0%R Rplus ((λ e, lsum (total alt e)) <$> es) = lsum alt.
Proof.
  intros Hnd. induction 1 as [|r alt Hr _ IH].
  - unfold total, lsum, vsum. simpl.
    induction es as [|e es IHes]; [done|].
    rewrite fmap_cons. cbn [foldr]. inversion Hnd; subst.
    rewrite IHes by done. lra.
  - transitivity (vsum 0%R Rplus
      ((λ e, if decide (eid r = e) then loss r else 0%R) <$> es)
      + vsum 0%R Rplus ((λ e, lsum (total alt e)) <$> es))%R.
    + clear. unfold vsum. induction es as [|e es IHes]; [simpl; lra|].
      rewrite !fmap_cons. cbn [foldr]. rewrite IHes.
      unfold total at 1. rewrite filter_cons. fold (total alt e).
      destruct (decide (eid r = e)); unfold lsum;
        rewrite ?fmap_cons; unfold vsum; simpl; lra.
    + rewrite rsum_single, IH by done. unfold lsum, vsum.
      rewrite fmap_cons. by simpl.
Qed.

(** X12.  With every key in 0..K-1 (or no key at all), the losses stored
    under the total key [K], added over the distinct events of the batch,
    give the sum of the losses of all the records: the totals neither drop
    nor count twice any loss. *)
Theorem total_key_conserves_losses alt K kids correl :
  Forall (λ k, k < K) kids →
  kids = [] ∨ Forall (λ r, aid r < length kids) alt →
  ∃ lbe,
    aggregate_losses alt K kids correl = Some lbe
    ∧ vsum 0%R Rplus
        ((λ e, loss_at lbe (e, K)) <$> remove_dups (eids_of alt))
      = lsum alt.
Proof.
  intros Hk Hok.
  destruct (proj2 (aggregate_losses_Some alt K kids correl) Hok)
    as [lbe Hagg].
  exists lbe. split; [done|].
  rewrite <- (rsum_events (remove_dups (eids_of alt)) alt).
  - f_equal. apply list_fmap_ext. intros _ e _.
    rewrite (loss_at_entry _ _ _ _ _ _ _ Hagg). unfold contributions.
    by rewrite decide_True, (keyed_total_key _ _ _ _ Hk) by done.
  - apply NoDup_remove_dups.
  - apply Forall_forall. intros r Hr. apply elem_of_remove_dups.
    unfold eids_of. by apply list_elem_of_fmap_2.
Qed.

Lemma total_key_conserves_losses_witness :
  ∃ lbe,
    aggregate_losses [LossRecord 1 0 5 4; LossRecord 2 1 7 9;
                      LossRecord 1 1 2 1] 2 [0; 1] 1 = Some lbe
    ∧ vsum 0%R Rplus
        ((λ e, loss_at lbe (e, 2))
           <$> remove_dups (eids_of [LossRecord 1 0 5 4; LossRecord 2 1 7 9;
                                     LossRecord 1 1 2 1]))
      = lsum [LossRecord 1 0 5 4; LossRecord 2 1 7 9; LossRecord 1 1 2 1].
Proof.
  apply (total_key_conserves_losses
           [LossRecord 1 0 5 4; LossRecord 2 1 7 9; LossRecord 1 1 2 1]
           2 [0; 1] 1).
  - repeat constructor.
  - right. repeat constructor.
Defined.

End AggregatorMore.

(** * Further properties of the task [event_based_risk] *)

Section TaskMore.
Import Accum Aggregator AggregatorSpec Task.
Context {rng : Type}.
Variable MultiEventRNG : nat → list nat → nat → rng.
Variable get_output :
  nat → list asset → list gmf_row → option rng
  → option ((string → list loss_record) * option rng).
Variable par : param.
Variable inp : inputs.

Lemma relevant_rows_nil df (asset_df : list asset) :
  (∀ row, row ∈ df → sid row ∉ site_id <$> asset_df) →
  relevant_rows df asset_df = [].
Proof.
  intros Hdf. unfold relevant_rows.
  induction df as [|row df IH]; [done|].
  rewrite filter_cons, decide_False by (apply Hdf; left).
  apply IH. intros; apply Hdf; by right.
Qed.

Lemma taxonomy_groups_subseteq (assets : list asset) g a :
  g ∈ taxonomy_groups assets → a ∈ g.2 → a ∈ assets.
Proof.
  unfold taxonomy_groups. intros (t & -> & _)%list_elem_of_fmap Ha.
  simpl in Ha. by apply list_elem_of_filter in Ha as [_ ?].
Qed.

(** X13.  A task whose hazard rows lie at no site of the exposure (in
    particular a task without hazard rows) skips every taxonomy: it returns
    the accumulators as they were created, never calls the risk model and
    raises no error, whatever the risk model. *)
Theorem no_relevant_hazard_no_losses (df : list gmf_row) :
  (∀ row, row ∈ df → sid row ∉ site_id <$> assets_df inp) →
  event_based_risk MultiEventRNG get_output par inp df
  = Some (initial MultiEventRNG par inp df).
Proof.
  intros Hdf. unfold event_based_risk, taxonomy_loop.
  assert (∀ g, g ∈ taxonomy_groups (assets_df inp) →
            relevant_rows df g.2 = []) as Hskip.
  { intros g Hg. apply relevant_rows_nil. intros row Hrow Hin.
    apply (Hdf row Hrow).
    apply list_elem_of_fmap in Hin as (a & -> & Ha).
    apply list_elem_of_fmap_2. by eapply taxonomy_groups_subseteq. }
  revert Hskip. generalize (taxonomy_groups (assets_df inp)).
  generalize (initial MultiEventRNG par inp df).
  intros s gs. revert s. induction gs as [|g gs IH]; intros s Hskip; [done|].
  assert (process_group get_output par inp df s g = Some s) as Hg.
  { unfold process_group. by rewrite Hskip by left. }
  cbn [foldlM]. rewrite Hg. simpl. apply IH. intros; apply Hskip; by right.
Qed.

Lemma names_fold_skip out names ln (s s' : state (rng := rng)) :
  foldlM (λ s ln, add_losses par inp ln (out ln) s) s names = Some s' →
  out ln = [] → loss_by_EK1 s' !! ln = loss_by_EK1 s !! ln.
Proof.
  revert s. induction names as [|n names IH]; intros s; simpl.
  - by intros [= <-].
  - destruct (add_losses par inp n (out n) s) as [s1|] eqn:H1; simpl; [|done].
    intros Hs' Hnil. rewrite (IH _ Hs' Hnil).
    apply add_losses_EK1 in H1 as [_ [[_ ->]|(Hn & lbe & _ & ->)]]; [done|].
    rewrite lookup_alter_ne; [done|]. by intros ->.
Qed.

(** X14.  When a taxonomy group is evaluated, the losses of its records
    are added to the running totals of each loss type, under every key and
    whatever the correlation: the loss stored after the group is the loss
    stored before plus the losses of the records that contribute to the
    key. *)
Theorem group_losses_accumulate
    (df : list gmf_row) (s : state (rng := rng)) (g : nat * list asset)
    (out : string → list loss_record) (rng' : option rng)
    (ln : string) (d : gmap (nat * nat) lv) :
  relevant_rows df g.2 ≠ [] →
  get_output g.1 g.2 (relevant_rows df g.2) (rndgen s) = Some (out, rng') →
  NoDup (loss_names inp) → ln ∈ loss_names inp →
  loss_by_EK1 s !! ln = Some d →
  is_Some (process_group get_output par inp df s g) →
  ∃ s' d',
    process_group get_output par inp df s g = Some s'
    ∧ loss_by_EK1 s' !! ln = Some d'
    ∧ ∀ e j,
        loss_at d' (e, j)
        = (loss_at d (e, j)
           + lsum (contributions (kids par inp) (K par) (out ln) e j))%R.
Proof.
  intros Hrows Hout Hnd Hln Hd [s' Hs']. exists s'.
  destruct (decide (out ln = [])) as [Hnil|Hne].
  - exists d. split_and!; [done | |].
    + rewrite <- Hd. unfold process_group in Hs'.
      destruct (relevant_rows df g.2) as [|row rows]; [done|].
      simpl in Hs'. rewrite Hout in Hs'. simpl in Hs'.
      by rewrite (names_fold_skip _ _ _ _ _ Hs' Hnil).
    + intros e j. rewrite Hnil. unfold contributions, keyed, total, lsum.
      simpl. destruct (decide (j = K par)); simpl; unfold vsum; simpl; lra.
  - destruct (process_group_EK1 get_output par inp df g out rng' ln s s'
                Hs' Hrows Hout Hnd Hln Hne) as (_ & lbe & Hagg & HEK).
    rewrite Hd in HEK. simpl in HEK.
    exists (iadd d lbe). split_and!; [done..|].
    intros e j. unfold loss_at. rewrite get_iadd. simpl.
    f_equal. apply (loss_at_entry _ _ _ _ _ _ _ Hagg).
Qed.

(** The sum of a group-by sum is the sum of all the rows. *)
Lemma rsum_single_key {K'} `{EqDecision K'} (c : R) (k0 : K') (ks : list K') :
  NoDup ks → k0 ∈ ks →
  vsum 0%R Rplus ((λ k, if decide (k0 = k) then c else 0%R) <$> ks) = c.
Proof.
  unfold vsum. induction 1 as [|k ks Hnotin Hnd IH]; intros Hin.
  { by apply elem_of_nil in Hin. }
  rewrite fmap_cons. cbn [foldr].
  destruct (decide (k0 = k)) as [->|Hne].
  - assert (foldr Rplus 0%R
              ((λ k', if decide (k = k') then c else 0%R) <$> ks) = 0%R) as ->.
    { clear -Hnotin. induction ks as [|k' ks IH]; [done|].
      apply not_elem_of_cons in Hnotin as [? ?].
      rewrite fmap_cons. cbn [foldr]. rewrite decide_False by done.
      rewrite IH by done. lra. }
    lra.
  - apply elem_of_cons in Hin as [?|Hin]; [done|]. rewrite IH by done. lra.
Qed.

Lemma group_of_cons {K' V} `{EqDecision K'} (k k0 : K') (v0 : V) rows :
  group_of k ((k0, v0) :: rows)
  = if decide (k0 = k) then v0 :: group_of k rows else group_of k rows.
Proof.
  unfold group_of. rewrite filter_cons. simpl.
  by destruct (decide (k0 = k)).
Qed.

Lemma rsum_groups {K'} `{EqDecision K'} (ks : list K') (rows : list (K' * R)) :
  NoDup ks → Forall (λ r, r.1 ∈ ks) rows →
  vsum 0%R Rplus ((λ k, vsum 0%R Rplus (group_of k rows)) <$> ks)
  = vsum 0%R Rplus rows.*2.
Proof.
  intros Hnd. induction 1 as [|[k0 v0] rows Hr _ IH].
  - unfold group_of, vsum. simpl. clear.
    induction ks as [|k ks IHks]; [done|].
    rewrite fmap_cons. cbn [foldr]. rewrite IHks. lra.
  - transitivity (vsum 0%R Rplus
      ((λ k, if decide (k0 = k) then v0 else 0%R) <$> ks)
      + vsum 0%R Rplus ((λ k, vsum 0%R Rplus (group_of k rows)) <$> ks))%R.
    + clear. unfold vsum. induction ks as [|k ks IHks]; [simpl; lra|].
      rewrite !fmap_cons. cbn [foldr]. rewrite IHks, group_of_cons.
      destruct (decide (k0 = k)); cbn [foldr]; lra.
    + rewrite rsum_single_key, IH by done. unfold vsum.
      rewrite fmap_cons. by simpl.
Qed.

Lemma groupby_sum_total {K'} `{EqDecision K'} (key_le : relation K')
    `{∀ a b, Decision (key_le a b)} (rows : list (K' * R)) :
  vsum 0%R Rplus (groupby_sum key_le 0%R Rplus rows).*2
  = vsum 0%R Rplus rows.*2.
Proof.
  rewrite <- (rsum_groups (merge_sort key_le (remove_dups rows.*1)) rows).
  - f_equal. unfold groupby_sum.
    generalize (merge_sort key_le (remove_dups rows.*1)). intros ks.
    induction ks as [|k ks IH]; [done|].
    rewrite !fmap_cons. simpl. f_equal. exact IH.
  - rewrite merge_sort_Permutation. apply NoDup_remove_dups.
  - apply Forall_forall. intros r Hr.
    rewrite merge_sort_Permutation, elem_of_remove_dups.
    by apply list_elem_of_fmap_2.
Qed.

Lemma fmap_pair_fst {A' B'} (b : B') (l : list A') :
  ((λ a, (a, b)) <$> l).*1 = l.
Proof. induction l as [|a l IH]; [done|]. rewrite !fmap_cons. simpl. by rewrite IH. Qed.

Lemma fmap_pair_snd {A' B' C'} (b : B') (l : list (A' * C')) :
  ((λ a, (a, b)) <$> l.*1).*2 = (λ _, b) <$> l.
Proof. induction l as [|a l IH]; [done|]. rewrite !fmap_cons. simpl. by rewrite IH. Qed.

(** The matrix appended by [add_losses] when average losses are kept. *)
Lemma add_losses_AR ln alt (s s' : state (rng := rng)) :
  add_losses par inp ln alt s = Some s' → alt ≠ [] →
  collect_rlzs par = true ∨ avg_losses par = true →
  ∃ (keys : list (nat * nat)) (data : list R),
    NoDup keys ∧ length keys = length data
    ∧ vsum 0%R Rplus data = lsum alt
    ∧ Forall (λ k, k.1 < (AR par inp).1 ∧ k.2 < (AR par inp).2) keys
    ∧ (collect_rlzs par = true → Forall (λ k, k.2 = 0) keys)
    ∧ loss_by_AR s'
      = alter (λ l, l ++ [Coo data keys.*1 keys.*2 (AR par inp)]) ln
              (loss_by_AR s).
Proof.
  unfold add_losses. intros Hs' Hne Hmode.
  assert (Nat.eqb (length alt) 0 = false) as Hlen by by destruct alt.
  rewrite Hlen in Hs'.
  apply bind_Some in Hs' as (lbe & _ & Hs').
  destruct (collect_rlzs par) eqn:Hcol.
  - apply bind_Some in Hs' as (m & Hm & Hs'). simplify_eq/=.
    set (tot := groupby_sum le 0%R Rplus ((λ r, (aid r, loss r)) <$> alt))
      in *.
    unfold coo in Hm. destruct (decide _) as [[Hrows Hcols]|]; [|done].
    simplify_eq/=.
    exists ((λ a, (a, 0)) <$> tot.*1), tot.*2. split_and!.
    + apply NoDup_fmap_2; [by intros ? ? [= ?]|]. apply groupby_sum_NoDup.
    + by rewrite !length_fmap.
    + unfold tot. rewrite groupby_sum_total. unfold lsum. f_equal.
      clear. induction alt as [|r alt IH]; [done|].
      rewrite !fmap_cons. simpl. by rewrite IH.
    + rewrite Forall_fmap. rewrite Forall_forall in Hrows.
      apply Forall_forall. intros a Ha. simpl. split; [by apply Hrows|].
      destruct tot as [|t tot']; [by apply elem_of_nil in Ha|].
      by inversion Hcols.
    + intros _. rewrite Forall_fmap. by apply Forall_true.
    + by rewrite fmap_pair_fst, fmap_pair_snd.
  - destruct Hmode as [?|Havg]; [done|]. rewrite Havg in Hs'.
    apply bind_Some in Hs' as (rows & Hrows & Hs').
    apply bind_Some in Hs' as (m & Hm & Hs'). simplify_eq/=.
    set (tot := groupby_sum pair_le 0%R Rplus rows) in *.
    unfold coo in Hm. destruct (decide _) as [[Hr Hc]|]; [|done].
    simplify_eq/=.
    exists tot.*1, tot.*2. split_and!.
    + apply groupby_sum_NoDup.
    + by rewrite !length_fmap.
    + unfold tot. rewrite groupby_sum_total. unfold lsum. f_equal.
      apply mapM_Some in Hrows. clear -Hrows.
      induction Hrows as [|r row alt rows Hrow _ IH]; [done|].
      rewrite !fmap_cons. rewrite IH. f_equal.
      apply bind_Some in Hrow as (z & _ & ?). by simplify_eq.
    + apply Forall_forall. intros k Hk.
      rewrite Forall_forall in Hr. rewrite Forall_forall in Hc.
      split; [apply Hr | apply Hc]; by apply list_elem_of_fmap_2.
    + done.
    + done.
Qed.

(** X15.  When average losses are kept ([collect_rlzs] or [avg_losses]),
    the sparse matrix appended for a non-empty batch of records has
    pairwise distinct (row, column) entries inside its shape, data that sum
    to the total loss of the batch, and a single column 0 when the
    realizations are collected. *)
Theorem avg_matrix_conserves_losses
    (ln : string) (alt : list loss_record) (s : state (rng := rng)) :
  alt ≠ [] →
  collect_rlzs par = true ∨ avg_losses par = true →
  is_Some (add_losses par inp ln alt s) →
  ∃ s' m,
    add_losses par inp ln alt s = Some s'
    ∧ loss_by_AR s' !! ln = (λ l, l ++ [m]) <$> loss_by_AR s !! ln
    ∧ vsum 0%R Rplus (coo_data m) = lsum alt
    ∧ NoDup (zip (coo_row m) (coo_col m))
    ∧ length (coo_row m) = length (coo_data m)
    ∧ length (coo_col m) = length (coo_data m)
    ∧ Forall (λ i, i < (AR par inp).1) (coo_row m)
    ∧ Forall (λ j, j < (AR par inp).2) (coo_col m)
    ∧ (collect_rlzs par = true → Forall (λ j, j = 0) (coo_col m)).
Proof.
  intros Hne Hmode [s' Hs'].
  destruct (add_losses_AR ln alt s s' Hs' Hne Hmode)
    as (keys & data & Hnd & Hlen & Hsum & Hin & Hcol & HAR).
  exists s', (Coo data keys.*1 keys.*2 (AR par inp)).
  split_and!; simpl; [done | | done | | | | | |].
  - by rewrite HAR, lookup_alter_eq.
  - by rewrite zip_fst_snd.
  - by rewrite length_fmap.
  - by rewrite length_fmap.
  - rewrite Forall_fmap. eapply Forall_impl; [exact Hin|]. by intros ? [? ?].
  - rewrite Forall_fmap. eapply Forall_impl; [exact Hin|]. by intros ? [? ?].
  - intros Hc. rewrite Forall_fmap. by apply Hcol.
Qed.

End TaskMore.

Lemma no_relevant_hazard_no_losses_witness :
  Task.event_based_risk (rng := unit) (λ _ _ _, tt) (λ _ _ _ _, None)
    (Task.Param 1 false false 0 42)
    (Task.Inputs [Task.Asset 0 7 5; Task.Asset 1 8 6] [0; 0] [0] [1%R]
                 ["structural"] false)
    [Task.GmfRow 3 1 [1%R]]
  = Some (Task.initial (λ _ _ _, tt) (Task.Param 1 false false 0 42)
            (Task.Inputs [Task.Asset 0 7 5; Task.Asset 1 8 6] [0; 0] [0]
                         [1%R] ["structural"] false)
            [Task.GmfRow 3 1 [1%R]]).
Proof.
  apply (no_relevant_hazard_no_losses (rng := unit) (λ _ _ _, tt)
           (λ _ _ _ _, None) (Task.Param 1 false false 0 42)
           (Task.Inputs [Task.Asset 0 7 5; Task.Asset 1 8 6] [0; 0] [0]
                        [1%R] ["structural"] false)
           [Task.GmfRow 3 1 [1%R]]).
  intros row Hrow%list_elem_of_singleton Hin%list_elem_of_In. subst row.
  simpl in Hin. lia.
Defined.

Lemma group_losses_accumulate_witness :
  ∃ s' d',
    Task.process_group (rng := unit)
      (λ _ _ _ r, Some (λ _, [Aggregator.LossRecord 1 0 5 4], r))
      (Task.Param 1 false false 1 42)
      (Task.Inputs [Task.Asset 0 1 0] [0] [0; 0] [1%R] ["structural"] false)
      [Task.GmfRow 0 1 [1%R]]
      (Task.State None {["structural" := []]} {["structural" := ∅]})
      (1, [Task.Asset 0 1 0]) = Some s'
    ∧ Task.loss_by_EK1 s' !! "structural" = Some d'
    ∧ ∀ e j,
        AggregatorSpec.loss_at d' (e, j)
        = Rplus (AggregatorSpec.loss_at ∅ (e, j))
            (AggregatorSpec.lsum
               (AggregatorSpec.contributions
                  (Task.kids (Task.Param 1 false false 1 42)
                     (Task.Inputs [Task.Asset 0 1 0] [0] [0; 0] [1%R]
                                  ["structural"] false))
                  1 [Aggregator.LossRecord 1 0 5 4] e j)).
Proof.
  apply (group_losses_accumulate (rng := unit)
           (λ _ _ _ r, Some (λ _, [Aggregator.LossRecord 1 0 5 4], r))
           (Task.Param 1 false false 1 42)
           (Task.Inputs [Task.Asset 0 1 0] [0] [0; 0] [1%R] ["structural"]
                        false)
           [Task.GmfRow 0 1 [1%R]]
           (Task.State None {["structural" := []]} {["structural" := ∅]})
           (1, [Task.Asset 0 1 0])
           (λ _, [Aggregator.LossRecord 1 0 5 4]) None "structural" ∅).
  - discriminate.
  - reflexivity.
  - repeat constructor. by intros ?%elem_of_nil.
  - left.
  - reflexivity.
  - eexists. reflexivity.
Defined.

Lemma avg_matrix_conserves_losses_witness :
  ∃ s' m,
    Task.add_losses (rng := unit) (Task.Param 1 true false 0 42)
      (Task.Inputs [Task.Asset 0 1 0; Task.Asset 1 1 0] [0; 0] [0; 0] [1%R]
                   ["structural"] false)
      "structural"
      [Aggregator.LossRecord 1 0 5 4; Aggregator.LossRecord 2 0 7 9]
      (Task.State None {["structural" := []]} {["structural" := ∅]})
    = Some s'
    ∧ Task.loss_by_AR s' !! "structural"
      = (λ l, l ++ [m])
          <$> ({["structural" := []]} : gmap string (list Task.coo_matrix))
              !! "structural"
    ∧ Accum.vsum 0%R Rplus (Task.coo_data m)
      = AggregatorSpec.lsum
          [Aggregator.LossRecord 1 0 5 4; Aggregator.LossRecord 2 0 7 9].
Proof.
  destruct (avg_matrix_conserves_losses (rng := unit)
              (Task.Param 1 true false 0 42)
              (Task.Inputs [Task.Asset 0 1 0; Task.Asset 1 1 0] [0; 0] [0; 0]
                           [1%R] ["structural"] false)
              "structural"
              [Aggregator.LossRecord 1 0 5 4; Aggregator.LossRecord 2 0 7 9]
              (Task.State None {["structural" := []]} {["structural" := ∅]}))
    as (s' & m & H1 & H2 & H3 & _).
  - discriminate.
  - by left.
  - eexists. reflexivity.
  - by exists s', m.
Defined.

(** * The variances merged across the taxonomy groups of a task *)

Section TaskVariances.
Import Accum Aggregator AggregatorSpec Task TaskSpec.
Context {rng : Type}.
Variable MultiEventRNG : nat → list nat → nat → rng.
Variable get_output :
  nat → list asset → list gmf_row → option rng
  → option ((string → list loss_record) * option rng).
Variable par : param.
Variable inp : inputs.

Local Abbreviation squares ln e j outs :=
  (vsum 0%R Rplus
     ((λ out : string → list loss_record,
         (deviation (contributions (kids par inp) (K par) (out ln) e j) ^ 2)%R)
        <$> outs)).

Lemma contributions_nil kids K e j : contributions kids K [] e j = [].
Proof. unfold contributions, keyed, total. by destruct (decide (j = K)). Qed.

(** With correlation, one call of [aggregate_losses] stores the square of
    the sum of the standard deviations of the contributing records. *)
Lemma call_variance alt K kids correl lbe e j :
  correl ≠ 0 →
  aggregate_losses alt K kids correl = Some lbe →
  variance_at lbe (e, j) = (deviation (contributions kids K alt e j) ^ 2)%R.
Proof.
  intros Hc Hagg. rewrite (variance_at_entry _ _ _ _ _ _ _ Hagg).
  assert (truthy correl = true) as Ht.
  { unfold truthy. by destruct (Nat.eqb_spec correl 0). }
  unfold post. rewrite Ht. cbn [snd]. f_equal.
  rewrite val_snd. unfold deviation. f_equal.
  apply list_fmap_ext. intros _ r _. unfold x_of. by rewrite Ht.
Qed.

(** One turn of the loop over the taxonomies adds, under every key, the
    square of the standard deviation that the group contributes. *)
Lemma process_group_variance df g (s s1 : state (rng := rng)) out ln d e j :
  asset_correlation par ≠ 0 →
  NoDup (loss_names inp) → ln ∈ loss_names inp →
  loss_by_EK1 s !! ln = Some d →
  process_group get_output par inp df s g = Some s1 →
  (if Nat.eqb (length (relevant_rows df g.2)) 0 then Some (λ _, [])
   else fst <$> get_output g.1 g.2 (relevant_rows df g.2) (rndgen s))
  = Some out →
  ∃ d1,
    loss_by_EK1 s1 !! ln = Some d1
    ∧ variance_at d1 (e, j)
      = (variance_at d (e, j)
         + deviation (contributions (kids par inp) (K par) (out ln) e j) ^ 2)%R.
Proof.
  intros Hc Hnd Hln Hd Hs1 Hout.
  destruct (relevant_rows df g.2) as [|row rows] eqn:Hrows.
  - simpl in Hout. unfold process_group in Hs1. rewrite Hrows in Hs1.
    simpl in Hs1. simplify_eq. exists d. split; [done|].
    rewrite contributions_nil. unfold deviation, vsum. simpl. lra.
  - simpl in Hout. apply fmap_Some in Hout as ([out' rng'] & Hget & ->).
    simpl. destruct (decide (out' ln = [])) as [Hnil|Hne].
    + exists d. split.
      * unfold process_group in Hs1. rewrite Hrows in Hs1. simpl in Hs1.
        rewrite Hget in Hs1. simpl in Hs1.
        by rewrite (names_fold_skip _ _ _ _ _ _ _ Hs1 Hnil).
      * rewrite Hnil, contributions_nil. unfold deviation, vsum. simpl. lra.
    + destruct (process_group_EK1 get_output par inp df g out' rng' ln s s1)
        as (_ & lbe & Hagg & HEK); [done | by rewrite Hrows | by rewrite Hrows
                                    | done | done | done |].
      rewrite Hd in HEK. simpl in HEK. exists (iadd d lbe). split; [done|].
      unfold variance_at at 1. rewrite get_iadd. unfold lv_add. cbn [snd].
      fold (variance_at d (e, j)). fold (variance_at lbe (e, j)).
      by rewrite (call_variance _ _ _ _ _ _ _ Hc Hagg).
Qed.

(** The loop adds the squares of the standard deviations contributed by
    the groups, one square for each group. *)
Lemma loop_variance df groups (s : state (rng := rng)) outs ln d e j :
  asset_correlation par ≠ 0 →
  NoDup (loss_names inp) → ln ∈ loss_names inp →
  loss_by_EK1 s !! ln = Some d →
  outputs get_output par inp df s groups = Some outs →
  ∃ s' d',
    taxonomy_loop get_output par inp df s groups = Some s'
    ∧ loss_by_EK1 s' !! ln = Some d'
    ∧ variance_at d' (e, j) = (variance_at d (e, j) + squares ln e j outs)%R.
Proof.
  intros Hc Hnd Hln. revert s d outs.
  induction groups as [|g gs IH]; intros s d outs Hd Houts.
  - simpl in Houts. simplify_eq. exists s, d. split_and!; [done | done |].
    unfold vsum. simpl. lra.
  - simpl in Houts. apply bind_Some in Houts as (out & Hout & Houts).
    apply bind_Some in Houts as (s1 & Hs1 & Houts).
    apply bind_Some in Houts as (outs' & Houts' & [= <-]).
    destruct (process_group_variance df g s s1 out ln d e j Hc Hnd Hln Hd Hs1
                Hout) as (d1 & Hd1 & Hv1).
    destruct (IH s1 d1 outs' Hd1 Houts') as (s' & d' & Hloop & Hd' & Hv').
    exists s', d'. split_and!; [|done|].
    + unfold taxonomy_loop in *. simpl. by rewrite Hs1.
    + rewrite Hv', Hv1, fmap_cons. unfold vsum. cbn [foldr]. lra.
Qed.

Lemma squares_cons ln e j (out : string → list loss_record) outs :
  squares ln e j (out :: outs)
  = (deviation (contributions (kids par inp) (K par) (out ln) e j) ^ 2
     + squares ln e j outs)%R.
Proof. by rewrite fmap_cons. Qed.

Lemma squares_app ln e j outs1 outs2 :
  squares ln e j (outs1 ++ outs2)
  = (squares ln e j outs1 + squares ln e j outs2)%R.
Proof.
  unfold vsum. induction outs1 as [|out outs1 IH].
  - simpl. lra.
  - rewrite <- app_comm_cons, !fmap_cons. cbn [foldr]. rewrite IH. lra.
Qed.

Lemma squares_none ln e j outs :
  Forall (λ out : string → list loss_record,
            contributions (kids par inp) (K par) (out ln) e j = []) outs →
  squares ln e j outs = 0%R.
Proof.
  unfold vsum. induction 1 as [|out outs Hout _ IH]; [done|].
  rewrite fmap_cons. cbn [foldr]. rewrite IH, Hout.
  unfold deviation, vsum. simpl. lra.
Qed.

Lemma deviation_nonneg rs : (0 <= deviation rs)%R.
Proof.
  unfold deviation, vsum. induction rs as [|r rs IH]; [simpl; lra|].
  rewrite fmap_cons. cbn [foldr]. pose proof (sqrt_pos (variance r)). lra.
Qed.

(** C10.  With the correlation flag set, in a task with any number of
    taxonomy groups, when two different groups contribute to the same entry
    [(e, j)] of a loss type, each with any number of records of non-negative
    variances whose standard deviations add up to [s1] respectively [s2],
    and no other group contributes to that entry, the variance stored in
    the accumulator of the task is [s1 ^ 2 + s2 ^ 2]: each call of
    [aggregate_losses] squares its sum of standard deviations, and the
    merge adds the squares.  It differs from [(s1 + s2) ^ 2] as soon as
    both deviations are positive. *)
Theorem correlated_groups_add_variances
    (df : list gmf_row)
    (before between after : list (string → list loss_record))
    (out1 out2 : string → list loss_record)
    (ln : string) (e j : nat) (s1 s2 : R) :
  asset_correlation par ≠ 0 →
  NoDup (loss_names inp) → ln ∈ loss_names inp →
  outputs get_output par inp df (initial MultiEventRNG par inp df)
          (taxonomy_groups (assets_df inp))
  = Some (before ++ out1 :: between ++ out2 :: after) →
  Forall (λ out : string → list loss_record,
            contributions (kids par inp) (K par) (out ln) e j = [])
         (before ++ between ++ after) →
  Forall (λ r, (0 <= variance r)%R)
         (contributions (kids par inp) (K par) (out1 ln) e j
          ++ contributions (kids par inp) (K par) (out2 ln) e j) →
  deviation (contributions (kids par inp) (K par) (out1 ln) e j) = s1 →
  deviation (contributions (kids par inp) (K par) (out2 ln) e j) = s2 →
  ∃ s' d,
    event_based_risk MultiEventRNG get_output par inp df = Some s'
    ∧ loss_by_EK1 s' !! ln = Some d
    ∧ variance_at d (e, j) = (s1 ^ 2 + s2 ^ 2)%R
    ∧ ((0 < s1)%R → (0 < s2)%R → variance_at d (e, j) ≠ ((s1 + s2) ^ 2)%R).
Proof.
  intros Hc Hnd Hln Houts Hothers _ Hs1 Hs2.
  destruct (loop_variance df _ _ _ ln ∅ e j Hc Hnd Hln
              (initial_EK1 MultiEventRNG par inp df ln Hln) Houts)
    as (s' & d & Hloop & Hd & Hv).
  exists s', d.
  assert (variance_at d (e, j) = (s1 ^ 2 + s2 ^ 2)%R) as Hvar.
  { rewrite Hv, squares_app, squares_cons, squares_app, squares_cons.
    apply Forall_app in Hothers as [Hb Hothers].
    apply Forall_app in Hothers as [Hm Ha].
    rewrite (squares_none _ _ _ _ Hb), (squares_none _ _ _ _ Hm),
      (squares_none _ _ _ _ Ha), Hs1, Hs2.
    unfold variance_at, get. rewrite lookup_empty. simpl. lra. }
  split_and!; [done | done | done |].
  intros Hp1 Hp2. rewrite Hvar. nra.
Qed.

End TaskVariances.

Lemma correlated_groups_add_variances_witness :
  ∃ s' d,
    Task.event_based_risk (rng := unit) (λ _ _ _, tt)
      (λ taxo _ _ r,
         Some (λ _, if Nat.eqb taxo 1 then [Aggregator.LossRecord 1 0 5 4]
                    else if Nat.eqb taxo 2 then [Aggregator.LossRecord 2 1 1 1]
                    else [Aggregator.LossRecord 1 2 7 9;
                          Aggregator.LossRecord 1 2 3 16], r))
      (Task.Param 1 false false 1 42)
      (Task.Inputs [Task.Asset 0 1 0; Task.Asset 1 2 0; Task.Asset 2 3 0;
                    Task.Asset 3 4 9]
                   [0; 0; 0; 0] [0; 0; 0] [1%R] ["structural"] false)
      [Task.GmfRow 0 1 [1%R]] = Some s'
    ∧ Task.loss_by_EK1 s' !! "structural" = Some d
    ∧ AggregatorSpec.variance_at d (1, 0) = (2 ^ 2 + 7 ^ 2)%R
    ∧ ((0 < 2)%R → (0 < 7)%R →
       AggregatorSpec.variance_at d (1, 0) ≠ ((2 + 7) ^ 2)%R).
Proof.
  apply (correlated_groups_add_variances (rng := unit) (λ _ _ _, tt)
           (λ taxo _ _ r,
              Some (λ _, if Nat.eqb taxo 1 then [Aggregator.LossRecord 1 0 5 4]
                         else if Nat.eqb taxo 2
                              then [Aggregator.LossRecord 2 1 1 1]
                              else [Aggregator.LossRecord 1 2 7 9;
                                    Aggregator.LossRecord 1 2 3 16], r))
           (Task.Param 1 false false 1 42)
           (Task.Inputs [Task.Asset 0 1 0; Task.Asset 1 2 0; Task.Asset 2 3 0;
                         Task.Asset 3 4 9]
                        [0; 0; 0; 0] [0; 0; 0] [1%R] ["structural"] false)
           [Task.GmfRow 0 1 [1%R]]
           [] [λ _, [Aggregator.LossRecord 2 1 1 1]] [λ _, []]
           (λ _, [Aggregator.LossRecord 1 0 5 4])
           (λ _, [Aggregator.LossRecord 1 2 7 9;
                  Aggregator.LossRecord 1 2 3 16])
           "structural" 1 0 2 7).
  - discriminate.
  - repeat constructor. by intros ?%elem_of_nil.
  - left.
  - reflexivity.
  - repeat constructor.
  - repeat constructor; simpl; lra.
  - unfold AggregatorSpec.deviation, Accum.vsum. simpl.
    replace 4%R with (2 * 2)%R by lra. rewrite sqrt_square by lra. lra.
  - unfold AggregatorSpec.deviation, Accum.vsum. simpl.
    replace 9%R with (3 * 3)%R by lra. replace 16%R with (4 * 4)%R by lra.
    rewrite !sqrt_square by lra. lra.
Defined.

(** * Further properties of [ebrisk], [start_ebrisk], [agg_dicts] and
      [execute] *)

Section ExecuteMore.
Import Task Execute.
Context {cell rupgetter : Type} {casts : dtype_casts}.
Variable gen_computers : rupgetter → list (computer (cell := cell)).
Variable split : rupgetter → list rupgetter.
Variable task_no_of : rupgetter → nat.
Variable lti : gmap string nat.
Variable risk_of_frame :
  gmap string (list cell) → option (list (gmap string value)).
Variable risk_of_slice : nat * nat → option (list (gmap string value)).

Local Abbreviation ebrisk :=
  (ebrisk gen_computers task_no_of risk_of_frame).
Local Abbreviation start_ebrisk :=
  (start_ebrisk gen_computers split task_no_of risk_of_frame).
Local Abbreviation execute :=
  (execute gen_computers split task_no_of lti risk_of_frame risk_of_slice).

Lemma mapM_snoc {A B} (f : A → option B) (l : list A) (x : A) :
  mapM f (l ++ [x])
  = mapM f l ≫= λ ys, f x ≫= λ y, Some (ys ++ [y]).
Proof.
  induction l as [|a l IH]; simpl.
  - by destruct (f x).
  - destruct (f a) as [b|]; simpl; [|done]. rewrite IH.
    destruct (mapM f l) as [ys|]; simpl; [|done].
    by destruct (f x).
Qed.

Lemma start_ebrisk_split rg :
  start_ebrisk rg = (λ yss, concat yss) <$> mapM ebrisk (split rg).
Proof.
  unfold Execute.start_ebrisk.
  destruct (split rg) as [|rg' rgs _] using rev_ind; [done|].
  rewrite length_app, last_snoc. simpl.
  replace (length rgs + 1 - 1) with (length rgs) by lia.
  rewrite take_app_length, mapM_snoc.
  destruct (mapM ebrisk rgs) as [subs|]; simpl; [|done].
  destruct (ebrisk rg') as [ys|]; simpl; [|done].
  rewrite concat_app. simpl. by rewrite app_nil_r.
Qed.

Import ExecuteSpec.

(** What the loop of [ebrisk] collects: one tuple for each computer with
    data, in order, and hazard columns that are not empty once a computer
    had data. *)
Lemma collect_fold no (cs : list (computer (cell := cell))) acc acc' :
  foldlM (collect no) acc cs = Some acc' →
  (∃ tuples,
     acc'.2 = acc.2 ++ tuples
     ∧ Forall2 (info_row no) (gmf_info_array tuples) (with_data cs))
  ∧ (acc.1 ≠ ∅ ∨ with_data cs ≠ [] → acc'.1 ≠ ∅).
Proof.
  revert acc. induction cs as [|c cs IH]; intros acc; simpl.
  - intros [= <-]. split; [exists []; split; [by rewrite app_nil_r|]|].
    + constructor.
    + by intros [?|?].
  - destruct (collect no acc c) as [acc1|] eqn:Hc; simpl; [|done].
    intros Hfold. destruct (IH _ Hfold) as [(tuples & Htuples & HF) Hne].
    unfold collect in Hc. unfold with_data. rewrite filter_cons.
    fold (with_data cs).
    destruct (Nat.eqb_spec (size (data c)) 0) as [H0|H0].
    + simplify_eq. rewrite decide_False by lia. split; [by eauto|].
      done.
    + rewrite decide_True by done.
      apply bind_Some in Hc as (sids & Hsid & Hc). simplify_eq/=.
      split.
      * exists ((ebrupture_id c, no, num_sids c,
                 length sids * size (data c) * 4, mon_dt c) :: tuples).
        split; [by rewrite Htuples, <- app_assoc|].
        unfold gmf_info_array. rewrite fmap_cons.
        constructor; [|done]. unfold info_row. simpl. eauto 10.
      * intros _. apply Hne. left. simpl. intros Hempty.
        apply (f_equal (λ m, m !! "sid")) in Hempty.
        rewrite lookup_union_with, Hsid, lookup_empty in Hempty.
        by destruct (acc.1 !! "sid").
Qed.

(** [ebrisk] returns when the hazard data of every computer is empty or
    has a column [sid] and the risk part returns. *)
Lemma ebrisk_returns (rg : rupgetter) :
  (∀ c, c ∈ gen_computers rg → data c = ∅ ∨ is_Some (data c !! "sid")) →
  (∀ alldata, is_Some (risk_of_frame alldata)) →
  is_Some (ebrisk rg).
Proof.
  intros Hcs Hrisk. unfold Execute.ebrisk.
  assert (∀ (cs : list (computer (cell := cell))) acc,
            (∀ c, c ∈ cs → data c = ∅ ∨ is_Some (data c !! "sid")) →
            is_Some (foldlM (collect (task_no_of rg)) acc cs)) as Hfold.
  { induction cs as [|c cs IH]; intros acc Hall; [by eexists|].
    simpl. assert (is_Some (collect (task_no_of rg) acc c)) as [acc1 ->].
    { unfold collect. destruct (Nat.eqb (size (data c)) 0) eqn:Hsize;
        [by eexists|].
      destruct (Hall c) as [Hempty|[sids ->]]; [by left | | by eexists].
      by rewrite Hempty, map_size_empty in Hsize. }
    simpl. apply IH. intros c' Hc'. apply Hall. by right. }
  destruct (Hfold (gen_computers rg) (∅, []) Hcs) as [[alldata info] ->].
  simpl. destruct (decide (alldata = ∅)); [by eexists|].
  destruct (Hrisk alldata) as [ys ->]. by eexists.
Qed.

(** When [ebrisk] returned and a computer had data, its last yield is the
    dictionary of the rows of [gmf_info]. *)
Lemma ebrisk_last_yield (rg : rupgetter) ys :
  ebrisk rg = Some ys →
  with_data (gen_computers rg) ≠ [] →
  ∃ ys0 rows,
    ys = ys0 ++ [{["gmf_info" := GmfInfo rows]}]
    ∧ Forall2 (info_row (task_no_of rg)) rows (with_data (gen_computers rg)).
Proof.
  intros Hys Hdata. unfold Execute.ebrisk in Hys.
  apply bind_Some in Hys as ([alldata info] & Hfold & Hys). simpl in *.
  destruct (collect_fold _ _ _ _ Hfold) as [(tuples & Htuples & HF) Hne].
  simpl in *. subst info.
  rewrite decide_False in Hys by (apply Hne; by right).
  apply bind_Some in Hys as (ys0 & Hrisk & Hret).
  exists ys0, (gmf_info_array tuples). split; [|done].
  destruct tuples as [|t tuples]; [|by simplify_eq/=].
  apply Forall2_nil_inv_l in HF. done.
Qed.

(** X18.  When [ebrisk] succeeds and a computer returned hazard data, the
    last dictionary it yields is [{'gmf_info': rows}], with one row for each
    computer that returned data, in order, holding the rupture id as [U32],
    the task number and the number of sites as [U16], and
    [len(data['sid']) * len(data) * 4] bytes and the elapsed time as [F32],
    as converted by [numpy.array(gmf_info, gmf_info_dt)]. *)
Theorem ebrisk_gmf_info (rg : rupgetter) :
  with_data (gen_computers rg) ≠ [] →
  is_Some (ebrisk rg) →
  ∃ ys rows,
    ebrisk rg = Some (ys ++ [{["gmf_info" := GmfInfo rows]}])
    ∧ Forall2 (info_row (task_no_of rg)) rows (with_data (gen_computers rg)).
Proof.
  intros Hdata [ys Hys].
  destruct (ebrisk_last_yield rg ys Hys Hdata) as (ys0 & rows & -> & HF).
  by exists ys0, rows.
Qed.

Lemma agg_dicts_prefix c dic c' :
  agg_dicts lti c dic = Some c' →
  gmf_info c `prefix_of` gmf_info c'
  ∧ agg_loss_table c `prefix_of` agg_loss_table c'.
Proof.
  unfold agg_dicts. destruct (decide (dic = ∅)); [by intros [= <-]|].
  destruct (dic !! "gmf_info") as [[rows|ls|rows]|].
  - done.
  - done.
  - intros [= <-]. simpl. split; [by apply prefix_app_r | done].
  - generalize (map_to_list dic). intros items. revert c.
    induction items as [|[ln v] items IH]; intros c; simpl.
    + by intros [= <-].
    + destruct v as [rows|ls|rows]; simpl.
      * intros Hc'. destruct (IH _ Hc') as [H1 H2]. simpl in *.
        split; [done|]. etrans; [|exact H2]. by apply prefix_app_r.
      * destruct (lti !! ln) as [l|]; simpl; [|done].
        intros Hc'. by destruct (IH _ Hc') as [H1 H2].
      * done.
Qed.

Lemma reduce_prefix c dics c' :
  foldlM (agg_dicts lti) c dics = Some c' →
  gmf_info c `prefix_of` gmf_info c'
  ∧ agg_loss_table c `prefix_of` agg_loss_table c'.
Proof.
  revert c. induction dics as [|dic dics IH]; intros c; simpl.
  - by intros [= <-].
  - destruct (agg_dicts lti c dic) as [c1|] eqn:H1; simpl; [|done].
    intros Hc'. destruct (IH _ Hc') as [? ?].
    destruct (agg_dicts_prefix _ _ _ H1) as [? ?].
    split; by etrans.
Qed.

(** X19.  The reduction by [agg_dicts] is append only: whatever
    dictionaries arrive, and in whatever order, the rows already present
    in [gmf_info] and in [agg_loss_table] stay in place and new rows are
    added after them. *)
Theorem reduce_append_only (c : calc) (dics : list (gmap string value)) :
  is_Some (foldlM (agg_dicts lti) c dics) →
  ∃ c' info rows,
    foldlM (agg_dicts lti) c dics = Some c'
    ∧ gmf_info c' = gmf_info c ++ info
    ∧ agg_loss_table c' = agg_loss_table c ++ rows.
Proof.
  intros [c' Hc']. destruct (reduce_prefix _ _ _ Hc') as [[info ?] [rows ?]].
  by exists c', info, rows.
Qed.

Lemma reduce_gmf_info c dics c' rows :
  foldlM (agg_dicts lti) c dics = Some c' →
  {["gmf_info" := GmfInfo rows]} ∈ dics → rows ≠ [] →
  gmf_info c' ≠ [].
Proof.
  intros Hc' (l1 & l2 & ->)%list_elem_of_split Hrows.
  rewrite foldlM_app in Hc'.
  apply bind_Some in Hc' as (c1 & _ & Hc'). simpl in Hc'.
  apply bind_Some in Hc' as (c2 & H2 & Hc').
  apply reduce_prefix in Hc' as [[info ->] _].
  unfold agg_dicts in H2.
  rewrite decide_False in H2.
  - rewrite lookup_singleton_eq in H2. simplify_eq/=.
    intros Hnil. apply app_eq_nil in Hnil as [Hnil _].
    by apply app_eq_nil in Hnil as [_ ?].
  - intros Hempty. apply (f_equal (λ m, m !! "gmf_info")) in Hempty.
    by rewrite lookup_singleton_eq, lookup_empty in Hempty.
Qed.

(** X20.  Starting from ruptures, [execute] raises "No GMFs were
    generated" only when nothing was generated: if it raises this error
    (with [gmf_info] read back as the results arrived), no computer of any
    rupture getter returned hazard data. *)
Theorem no_gmfs_only_without_data
    (c : calc) (concurrent_tasks : nat) (rgs : list rupgetter)
    (arrival : list (gmap string value) → list (gmap string value))
    (rg rg' : rupgetter) (comp : computer (cell := cell)) :
  (∀ l, arrival l ≡ₚ l) →
  execute c None concurrent_tasks rgs arrival = Raised no_gmfs →
  rg ∈ rgs → rg' ∈ split rg → comp ∈ gen_computers rg' →
  data comp = ∅.
Proof.
  intros Hperm Hexec Hrg Hrg' Hcomp. unfold Execute.execute in Hexec.
  destruct (mapM start_ebrisk rgs) as [yss|] eqn:Hyss; [|done].
  destruct (foldlM (agg_dicts lti) c (arrival (concat yss))) as [c'|] eqn:Hc';
    [|done].
  destruct (Nat.eqb_spec (length (gmf_info c')) 0) as [Hlen|]; [|done].
  apply map_size_empty_iff.
  destruct (decide (size (data comp) = 0)) as [|Hsize]; [done|]. exfalso.
  apply mapM_Some in Hyss.
  apply list_elem_of_lookup_1 in Hrg as [i Hi].
  destruct (Forall2_lookup_l _ _ _ _ _ Hyss Hi) as (ys & Hys & Hstart).
  rewrite start_ebrisk_split in Hstart.
  apply fmap_Some in Hstart as (subs & Hsubs & ->).
  apply mapM_Some in Hsubs.
  apply list_elem_of_lookup_1 in Hrg' as [k Hk].
  destruct (Forall2_lookup_l _ _ _ _ _ Hsubs Hk) as (ys' & Hys' & Heb).
  destruct (ebrisk_last_yield rg' ys' Heb) as (ys0 & rows & -> & HF).
  { intros Hnil. assert (comp ∈ with_data (gen_computers rg')) as Hin
      by by apply list_elem_of_filter.
    rewrite Hnil in Hin. by apply elem_of_nil in Hin. }
  assert (rows ≠ []) as Hrows.
  { intros ->. apply Forall2_nil_inv_l in HF.
    assert (comp ∈ with_data (gen_computers rg')) as Hin
      by by apply list_elem_of_filter.
    rewrite HF in Hin. by apply elem_of_nil in Hin. }
  apply (reduce_gmf_info _ _ _ rows Hc'); [|done|].
  - rewrite Hperm. apply elem_of_concat.
    exists (concat subs). split; [|by eapply list_elem_of_lookup_2].
    apply elem_of_concat. exists (ys0 ++ [{["gmf_info" := GmfInfo rows]}]).
    split; [|by eapply list_elem_of_lookup_2].
    apply elem_of_app. right. left.
  - by apply length_zero_iff_nil.
Qed.

End ExecuteMore.

Lemma ebrisk_gmf_info_witness :
  ∃ ys rows,
    Execute.ebrisk (cell := nat) (rupgetter := nat)
      (casts := Execute.DtypeCasts (λ n, n) (λ n, n) (λ x, x))
      (λ _, [Execute.Computer 1 3 ∅ 0%R;
             Execute.Computer 2 5 {["sid" := [7; 8]]} 0%R])
      (λ rg, rg) (λ _, Some []) 0
    = Some (ys ++ [{["gmf_info" := Execute.GmfInfo rows]}])
    ∧ Forall2 (ExecuteSpec.info_row
                 (casts := Execute.DtypeCasts (λ n, n) (λ n, n) (λ x, x)) 0)
        rows
        (ExecuteSpec.with_data
           [Execute.Computer 1 3 ∅ 0%R;
            Execute.Computer 2 5 {["sid" := [7; 8]]} 0%R]).
Proof.
  apply (ebrisk_gmf_info (cell := nat) (rupgetter := nat)
           (casts := Execute.DtypeCasts (λ n, n) (λ n, n) (λ x, x))
           (λ _, [Execute.Computer 1 3 ∅ 0%R;
                  Execute.Computer 2 5 {["sid" := [7; 8]]} 0%R])
           (λ rg, rg) (λ _, Some []) 0).
  - intros Hnil.
    assert (Execute.Computer (cell := nat) 2 5 {["sid" := [7; 8]]} 0%R
            ∈ ExecuteSpec.with_data
                [Execute.Computer 1 3 ∅ 0%R;
                 Execute.Computer 2 5 {["sid" := [7; 8]]} 0%R]) as Hin.
    { apply list_elem_of_filter. split; [|right; left].
      simpl. by rewrite map_size_singleton. }
    rewrite Hnil in Hin. by apply elem_of_nil in Hin.
  - apply ebrisk_returns; [|by eexists].
    intros c [->|Hc]%elem_of_cons; [by left|].
    apply list_elem_of_singleton in Hc as ->. right.
    eexists. apply lookup_singleton_eq.
Defined.

Lemma reduce_append_only_witness :
  ∃ c' info rows,
    Task.foldlM (Execute.agg_dicts ∅) (Execute.Calc [] [] ∅)
      [{["gmf_info" := Execute.GmfInfo [Execute.GmfInfoRow 1 0 3 8%R 0%R]]}]
    = Some c'
    ∧ Execute.gmf_info c' = [] ++ info
    ∧ Execute.agg_loss_table c' = [] ++ rows.
Proof.
  apply (reduce_append_only ∅ (Execute.Calc [] [] ∅)
           [{["gmf_info" := Execute.GmfInfo
                              [Execute.GmfInfoRow 1 0 3 8%R 0%R]]}]).
  eexists. reflexivity.
Defined.

Lemma no_gmfs_only_without_data_witness :
  Execute.data (Execute.Computer (cell := nat) 1 3 ∅ 0%R) = ∅.
Proof.
  apply (no_gmfs_only_without_data (cell := nat) (rupgetter := nat)
           (casts := Execute.DtypeCasts (λ n, n) (λ n, n) (λ x, x))
           (λ rg, [Execute.Computer rg 3 ∅ 0%R]) (λ rg, [rg; S rg])
           (λ rg, rg) ∅ (λ _, None) (λ _, None) (Execute.Calc [] [] ∅) 4
           [0; 10] (λ l, l) 0 1 (Execute.Computer 1 3 ∅ 0%R)).
  - intros l. reflexivity.
  - reflexivity.
  - left.
  - right. left.
  - left.
Defined.

(** * Further properties of the size guard *)

Section GuardMore.
Import Guard.

(** X22.  Raising the number of tasks never turns a pass of the size guard
    into a rejection, and for every number of events and loss types some
    number of tasks passes. *)
Theorem check_alt_nbytes_tasks (E L ct ct' : Z) :
  (0 <= E)%Z → (0 <= L)%Z → (0 <= ct <= ct')%Z →
  (check_alt_nbytes E L ct = None → check_alt_nbytes E L ct' = None)
  ∧ ∃ n, (0 < n)%Z ∧ check_alt_nbytes E L n = None.
Proof.
  intros HE HL Hct. split.
  - rewrite !check_alt_nbytes_None by lia. unfold or_1, TWO32.
    destruct (Z.eqb_spec ct 0), (Z.eqb_spec ct' 0); nia.
  - exists (E * L + 1)%Z. split; [nia|].
    apply check_alt_nbytes_None; [nia|]. unfold or_1, TWO32.
    destruct (Z.eqb_spec (E * L + 1) 0); nia.
Qed.

Lemma check_alt_nbytes_tasks_witness :
  check_alt_nbytes (4 * 10 ^ 8) 3 1000 = None
  ∧ ∃ n, (0 < n)%Z ∧ check_alt_nbytes (4 * 10 ^ 8) 3 n = None.
Proof.
  destruct (check_alt_nbytes_tasks (4 * 10 ^ 8) 3 2 1000) as [Hmono Hex];
    [lia | lia | lia |].
  split; [apply Hmono; vm_compute; reflexivity | exact Hex].
Defined.

End GuardMore.

(** * Properties of [_build_agg_loss_table] and of the yielded results *)

Section TableMore.
Import Accum Task Execute Table.
Variable to_U32 : nat → nat.
Variable to_U16 : nat → nat.
Variable lid_of : nat → nat.
Implicit Types (keys : list string)
  (acc : gmap string (gmap (nat * nat) lv)).

Local Abbreviation frame := (frame to_U32 to_U16 lid_of).
Local Abbreviation build := (_build_agg_loss_table to_U32 to_U16 lid_of).

Lemma build_snoc keys ln acc :
  build (keys ++ [ln]) acc
  = match acc !! ln with
    | Some d =>
        if Nat.eqb (size d) 0 then build keys acc
        else <[ln := frame (length keys) d]> (build keys acc)
    | None => build keys acc
    end.
Proof.
  unfold _build_agg_loss_table. rewrite imap_app, foldl_app. simpl.
  by rewrite Nat.add_0_r.
Qed.

Lemma build_notin keys acc ln : ln ∉ keys → build keys acc !! ln = None.
Proof.
  induction keys as [|n keys IH] using rev_ind; [done|].
  intros [Hin Hne]%not_elem_of_app. rewrite build_snoc.
  apply not_elem_of_cons in Hne as [Hne _].
  destruct (acc !! n) as [d|]; [|by auto].
  destruct (Nat.eqb (size d) 0); [by auto|].
  rewrite lookup_insert_ne by done. auto.
Qed.

Lemma build_lookup keys acc lni ln :
  NoDup keys → keys !! lni = Some ln →
  build keys acc !! ln
  = acc !! ln ≫= λ d, if Nat.eqb (size d) 0 then None
                       else Some (frame lni d).
Proof.
  induction keys as [|n keys IH] using rev_ind; [done|].
  intros [Hnd [Hdisj _]]%NoDup_app Hlni. rewrite build_snoc.
  apply lookup_snoc_Some in Hlni as [[Hlt Hlni]|[-> ->]].
  - assert (n ≠ ln) as Hne.
    { intros ->. apply (Hdisj ln); [by eapply list_elem_of_lookup_2 | left]. }
    rewrite <- (IH Hnd Hlni).
    destruct (acc !! n) as [d|]; [|done].
    destruct (Nat.eqb (size d) 0); [done|]. by rewrite lookup_insert_ne.
  - assert (ln ∉ keys) as Hnotin.
    { intros Hin. apply (Hdisj ln Hin). left. }
    destruct (acc !! ln) as [d|]; simpl; [|by apply build_notin].
    destruct (Nat.eqb (size d) 0); [by apply build_notin|].
    by rewrite lookup_insert_eq.
Qed.

Lemma length_frame (lni : nat) (d : gmap (nat * nat) lv) :
  length (frame lni d) = size d.
Proof. unfold Table.frame. by rewrite length_fmap, length_map_to_list. Qed.

(** X23.  For a loss type that [loss_by_EK1] holds at index [lni], the
    table built by [_build_agg_loss_table] has no frame when the
    accumulator is empty and otherwise a frame with one row for each entry
    of the accumulator, carrying its loss and variance and the index of the
    loss type; when the ids are left unchanged by the conversions to the
    column types the rows have pairwise distinct (event, key) pairs. *)
Theorem build_agg_loss_table_rows
    keys acc (lni : nat) (ln : string) (d : gmap (nat * nat) lv) :
  NoDup keys → keys !! lni = Some ln → acc !! ln = Some d →
  (d = ∅ → build keys acc !! ln = None)
  ∧ (d ≠ ∅ →
     ∃ rows,
       build keys acc !! ln = Some rows
       ∧ length rows = size d
       ∧ (∀ e k v, d !! (e, k) = Some v →
            AltRow (to_U32 e) (to_U16 k) v.1 v.2 (lid_of lni) ∈ rows)
       ∧ (∀ r, r ∈ rows →
            loss_id r = lid_of lni
            ∧ ∃ e k, d !! (e, k) = Some (alt_loss r, alt_variance r)
                     ∧ event_id r = to_U32 e ∧ agg_id r = to_U16 k)
       ∧ ((∀ e k, is_Some (d !! (e, k)) → to_U32 e = e ∧ to_U16 k = k) →
          NoDup ((λ r, (event_id r, agg_id r)) <$> rows))).
Proof.
  intros Hnd Hlni Hd. rewrite (build_lookup _ _ _ _ Hnd Hlni), Hd. simpl.
  split.
  - intros ->. by rewrite map_size_empty.
  - intros Hne. apply map_size_non_empty_iff in Hne.
    destruct (Nat.eqb_spec (size d) 0) as [|_]; [done|].
    exists (frame lni d). split_and!; [done | apply length_frame | | |].
    + intros e k v Hv. unfold Table.frame.
      apply list_elem_of_fmap. exists ((e, k), v). split; [done|].
      by apply elem_of_map_to_list.
    + intros r Hr. unfold Table.frame in Hr.
      apply list_elem_of_fmap in Hr as ([[e k] [l v]] & -> & Hin).
      apply elem_of_map_to_list in Hin. simpl. split; [done|]. eauto.
    + intros Hid. unfold Table.frame. rewrite <- list_fmap_compose.
      rewrite (list_fmap_ext _ fst).
      * apply NoDup_fst_map_to_list.
      * intros i [[e k] v] Hi. simpl.
        apply list_elem_of_lookup_2, elem_of_map_to_list in Hi.
        destruct (Hid e k) as [-> ->]; eauto.
Qed.

Lemma concat_Permutation {A} (ls ls' : list (list A)) :
  ls ≡ₚ ls' → concat ls ≡ₚ concat ls'.
Proof.
  induction 1 as [|l ls ls' _ IH|l1 l2 ls|? ? ? _ IH1 _ IH2]; simpl.
  - done.
  - by rewrite IH.
  - rewrite !app_assoc. apply Permutation_app_tail, Permutation_app_comm.
  - by etrans.
Qed.

(** The rows of all the frames of the table. *)
Lemma build_frames keys acc :
  NoDup keys →
  concat (map_to_list (build keys acc)).*2
  ≡ₚ concat (imap (λ lni ln, frame lni (default ∅ (acc !! ln))) keys).
Proof.
  induction keys as [|n keys IH] using rev_ind; intros Hnd.
  { unfold _build_agg_loss_table. simpl. by rewrite map_to_list_empty. }
  apply NoDup_app in Hnd as [Hnd [Hdisj _]].
  assert (n ∉ keys) as Hnotin.
  { intros Hin. apply (Hdisj n Hin). left. }
  rewrite build_snoc, imap_app, concat_app. simpl.
  rewrite Nat.add_0_r, app_nil_r.
  destruct (acc !! n) as [d|] eqn:Hn; simpl.
  - destruct (Nat.eqb_spec (size d) 0) as [H0|H0].
    + apply map_size_empty_iff in H0. subst d.
      unfold Table.frame at 2. rewrite map_to_list_empty. simpl.
      rewrite app_nil_r. by apply IH.
    + rewrite map_to_list_insert by by apply build_notin.
      rewrite fmap_cons. simpl. rewrite (IH Hnd).
      apply Permutation_app_comm.
  - unfold Table.frame at 2. rewrite map_to_list_empty. simpl.
    rewrite app_nil_r. by apply IH.
Qed.

Lemma concat_imap_length {A B} (g : nat → A → list B) (h : A → nat) l :
  (∀ i x, length (g i x) = h x) →
  length (concat (imap g l)) = sum_list (h <$> l).
Proof.
  revert g. induction l as [|x l IH]; intros g Hg; [done|].
  rewrite imap_cons, fmap_cons. simpl. rewrite length_app, Hg.
  f_equal. apply IH. intros i y. apply Hg.
Qed.

Variable lti : gmap string nat.

Lemma agg_frames (c c' : calc) (tbl : gmap string (list alt_row)) :
  agg_dicts lti c (DataFrame <$> tbl) = Some c' →
  gmf_info c' = gmf_info c
  ∧ agg_loss_table c' = agg_loss_table c ++ concat (map_to_list tbl).*2.
Proof.
  unfold agg_dicts. destruct (decide (DataFrame <$> tbl = ∅)) as [He|_].
  { apply fmap_empty_inv in He. subst tbl. intros [= <-].
    by rewrite map_to_list_empty, app_nil_r. }
  rewrite lookup_fmap. destruct (tbl !! "gmf_info"); simpl; [done|].
  rewrite map_to_list_fmap. generalize (map_to_list tbl). intros items.
  revert c. induction items as [|[ln rows] items IH]; intros c.
  - simpl. intros [= <-]. by rewrite app_nil_r.
  - rewrite !fmap_cons. simpl. intros Hc'.
    destruct (IH _ Hc') as [-> ->]. simpl. by rewrite <- app_assoc.
Qed.

Lemma agg_coos (c c' : calc) (ar : gmap string (list coo_matrix)) :
  agg_dicts lti c (CooList <$> ar) = Some c' →
  gmf_info c' = gmf_info c ∧ agg_loss_table c' = agg_loss_table c.
Proof.
  unfold agg_dicts. destruct (decide (CooList <$> ar = ∅)) as [He|_].
  { by intros [= <-]. }
  rewrite lookup_fmap. destruct (ar !! "gmf_info"); simpl; [done|].
  rewrite map_to_list_fmap. generalize (map_to_list ar). intros items.
  revert c. induction items as [|[ln ls] items IH]; intros c.
  - simpl. by intros [= <-].
  - rewrite !fmap_cons. simpl.
    destruct (lti !! ln) as [l|]; simpl; [|done].
    intros Hc'. by destruct (IH _ Hc') as [-> ->].
Qed.

(** X24.  Reducing the results yielded by a task leaves [gmf_info] as it
    is and appends to [agg_loss_table], after the rows already there, the
    rows of the frames of all the loss types: each entry of each
    accumulator of the task gives one appended row. *)
Theorem yields_reduced {rng : Type}
    (keys : list string) (s : state (rng := rng)) (c : calc) :
  NoDup keys →
  is_Some (foldlM (agg_dicts lti) c (yields to_U32 to_U16 lid_of keys s)) →
  ∃ c' rows,
    foldlM (agg_dicts lti) c (yields to_U32 to_U16 lid_of keys s) = Some c'
    ∧ gmf_info c' = gmf_info c
    ∧ agg_loss_table c' = agg_loss_table c ++ rows
    ∧ rows ≡ₚ concat (imap (λ lni ln,
                               frame lni (default ∅ (loss_by_EK1 s !! ln)))
                            keys)
    ∧ length rows
      = sum_list ((λ ln, size (default ∅ (loss_by_EK1 s !! ln))) <$> keys).
Proof.
  intros Hnd [c' Hc']. exists c'.
  exists (concat (map_to_list (build keys (loss_by_EK1 s))).*2).
  assert (gmf_info c' = gmf_info c
          ∧ agg_loss_table c'
            = agg_loss_table c
              ++ concat (map_to_list (build keys (loss_by_EK1 s))).*2)
    as [Hinfo Htable].
  { unfold yields in Hc'. rewrite foldlM_app in Hc'.
    apply bind_Some in Hc' as (c1 & H1 & H2).
    assert (gmf_info c1 = gmf_info c
            ∧ agg_loss_table c1 = agg_loss_table c) as [<- <-].
    { destruct (Nat.eqb (size (loss_by_AR s)) 0); simpl in H1.
      - by simplify_eq.
      - apply bind_Some in H1 as (c2 & H1 & ?). simplify_eq.
        by apply agg_coos in H1. }
    destruct (Nat.eqb_spec (size (build keys (loss_by_EK1 s))) 0)
      as [H0|_]; simpl in H2.
    - apply map_size_empty_iff in H0. rewrite H0, map_to_list_empty.
      simplify_eq. by rewrite app_nil_r.
    - apply bind_Some in H2 as (c2 & H2 & ?). simplify_eq.
      by apply agg_frames in H2. }
  pose proof (build_frames keys (loss_by_EK1 s) Hnd) as Hperm.
  split_and!; [done..|].
  rewrite Hperm. apply concat_imap_length. intros i ln. apply length_frame.
Qed.

End TableMore.

Lemma build_agg_loss_table_rows_witness :
  ∃ rows,
    Table._build_agg_loss_table (λ n, n) (λ n, n) (λ n, n)
      ["structural"] {["structural" := {[(1, 0) := (5%R, 4%R)]}]}
    !! "structural" = Some rows
    ∧ length rows = 1.
Proof.
  destruct (build_agg_loss_table_rows (λ n, n) (λ n, n) (λ n, n)
              ["structural"] {["structural" := {[(1, 0) := (5%R, 4%R)]}]}
              0 "structural" {[(1, 0) := (5%R, 4%R)]}) as [_ Hrows].
  - repeat constructor. by intros ?%elem_of_nil.
  - reflexivity.
  - apply lookup_singleton_eq.
  - destruct Hrows as (rows & Hb & Hlen & _).
    + apply map_non_empty_singleton.
    + exists rows. split; [exact Hb|]. rewrite Hlen. apply map_size_singleton.
Defined.

Lemma yields_reduced_witness :
  ∃ c' rows,
    Task.foldlM (Execute.agg_dicts ∅) (Execute.Calc [] [] ∅)
      (Table.yields (rng := unit) (λ n, n) (λ n, n) (λ n, n) ["structural"]
         (Task.State None ∅ {["structural" := {[(1, 0) := (5%R, 4%R)]}]}))
    = Some c'
    ∧ Execute.gmf_info c' = []
    ∧ Execute.agg_loss_table c' = [] ++ rows.
Proof.
  destruct (yields_reduced (λ n, n) (λ n, n) (λ n, n) ∅ (rng := unit)
              ["structural"]
              (Task.State None ∅ {["structural" := {[(1, 0) := (5%R, 4%R)]}]})
              (Execute.Calc [] [] ∅))
    as (c' & rows & H1 & H2 & H3 & _).
  - repeat constructor. by intros ?%elem_of_nil.
  - generalize 5%R, 4%R. intros r1 r2. eexists. vm_compute. reflexivity.
  - exists c', rows. split; [exact H1|]. split; [exact H2 | exact H3].
Defined.
